(** * The MySQL keystore of salt (salt/keystores/mysql_keystore.py)

    A shallow embedding of [Mysql_key] and of the [compat] decorator, and the
    properties of the lifecycle operations, of the name matcher and of the
    naming translation that the specification states about them.

    What the embedding fixes about the world around the module:
    - a Python 2 [str] is a [string] of 8-bit characters;
    - a [dict] is a [gmap]; its iteration order is the one of [map_to_list],
      which, like the order of a Python 2 dict, is fixed but unspecified;
    - the MySQL table is a list of rows in the order a [SELECT] without
      [ORDER BY] yields them; string comparison in a [WHERE] clause is exact;
    - a query text is represented by the statement it denotes, which it does
      as long as no interpolated value holds a quote or a backslash: a
      statement interpolating such a value leaves the model ([Beyond]);
    - [re.match] is modelled on a fragment of the pattern syntax (literals,
      [.], [\w], escaped punctuation, [^], [$], and the greedy quantifiers
      [*], [+], [?]); a pattern outside it leaves the model ([Beyond]);
    - logging has no effect on results and is left out. *)

From stdpp Require Import gmap strings list fin_maps.
From Stdlib Require Import ZArith Ascii Permutation.

Local Open Scope Z_scope.

(** ** Python strings *)

Module Str.

Definition star : ascii := "*"%char.
Definition comma : ascii := ","%char.
Definition newline : ascii := "010"%char.

(** [s.endswith(c)] for a one-character [c]. *)
Fixpoint endswith (s : string) (c : ascii) : bool :=
  match s with
  | EmptyString => false
  | String a EmptyString => Ascii.eqb a c
  | String _ s' => endswith s' c
  end.

Fixpoint lstrip (s : string) (c : ascii) : string :=
  match s with
  | String a s' => if Ascii.eqb a c then lstrip s' c else s
  | EmptyString => EmptyString
  end.

Fixpoint rstrip (s : string) (c : ascii) : string :=
  match s with
  | String a s' =>
      match rstrip s' c with
      | EmptyString => if Ascii.eqb a c then EmptyString else String a EmptyString
      | t => String a t
      end
  | EmptyString => EmptyString
  end.

(** [s.strip(c)]: every leading and every trailing [c] is removed. *)
Definition strip (s : string) (c : ascii) : string := rstrip (lstrip s c) c.

(** [c in s]. *)
Fixpoint contains (c : ascii) (s : string) : bool :=
  match s with
  | String a s' => Ascii.eqb a c || contains c s'
  | EmptyString => false
  end.

(** [s.split(c)]: never the empty list. *)
Fixpoint split (s : string) (c : ascii) : list string :=
  match s with
  | EmptyString => [EmptyString]
  | String a s' =>
      if Ascii.eqb a c then EmptyString :: split s' c
      else match split s' c with
           | h :: t => String a h :: t
           | [] => [String a EmptyString]
           end
  end.

Definition between (lo hi c : ascii) : bool :=
  (N_of_ascii lo <=? N_of_ascii c)%N && (N_of_ascii c <=? N_of_ascii hi)%N.

Definition lower_char (c : ascii) : ascii :=
  if between "A" "Z" c then ascii_of_N (N_of_ascii c + 32) else c.

(** [s.lower()] in the C locale. *)
Fixpoint lower (s : string) : string :=
  match s with
  | String a s' => String (lower_char a) (lower s')
  | EmptyString => EmptyString
  end.

Fixpoint all (p : ascii -> bool) (s : string) : bool :=
  match s with
  | String a s' => p a && all p s'
  | EmptyString => true
  end.

End Str.

(** ** The fragment of [re] the matcher is modelled on *)

Module Sre.

Inductive atom := Lit (c : ascii) | Dot | Word.
Inductive quant := Once | Star | Plus | Opt.
Inductive node := Bol | Eol | Rep (a : atom) (q : quant).
Inductive token := TBol | TEol | TAtom (a : atom) | TQuant (q : quant).

(** [\w] without LOCALE or UNICODE: the set [a-zA-Z0-9_]. *)
Definition is_word (c : ascii) : bool :=
  Str.between "a" "z" c || Str.between "A" "Z" c || Str.between "0" "9" c
  || Ascii.eqb c "_".

Definition is_alnum (c : ascii) : bool :=
  Str.between "a" "z" c || Str.between "A" "Z" c || Str.between "0" "9" c.

(** The characters that open a construct which is not modelled. *)
Definition opens_unmodelled (c : ascii) : bool :=
  Ascii.eqb c "{" || Ascii.eqb c "[" || Ascii.eqb c "(" || Ascii.eqb c ")"
  || Ascii.eqb c "|".

Definition token_of (c : ascii) : option token :=
  if Ascii.eqb c "^" then Some TBol
  else if Ascii.eqb c "$" then Some TEol
  else if Ascii.eqb c "." then Some (TAtom Dot)
  else if Ascii.eqb c "*" then Some (TQuant Star)
  else if Ascii.eqb c "+" then Some (TQuant Plus)
  else if Ascii.eqb c "?" then Some (TQuant Opt)
  else if opens_unmodelled c then None
  else Some (TAtom (Lit c)).

(** A backslash followed by [w] is the word class, followed by a character
    that is neither a letter nor a digit it is that character; the other
    escapes are outside the fragment. *)
Definition escape (e : ascii) : option token :=
  if Ascii.eqb e "w" then Some (TAtom Word)
  else if is_alnum e then None
  else Some (TAtom (Lit e)).

Fixpoint tokenize (s : string) : option (list token) :=
  match s with
  | EmptyString => Some []
  | String c s1 =>
      if Ascii.eqb c "\" then
        match s1 with
        | String e s2 =>
            match escape e, tokenize s2 with
            | Some t, Some ts => Some (t :: ts)
            | _, _ => None
            end
        | EmptyString => None
        end
      else
        match token_of c, tokenize s1 with
        | Some t, Some ts => Some (t :: ts)
        | _, _ => None
        end
  end.

(** A quantifier needs an atom before it, and none may follow another
    (the lazy forms are not modelled, the others are rejected by [re]). *)
Fixpoint build (ts : list token) : option (list node) :=
  match ts with
  | [] => Some []
  | TQuant _ :: _ => None
  | TBol :: rest => cons Bol <$> build rest
  | TEol :: rest => cons Eol <$> build rest
  | TAtom a :: TQuant q :: rest =>
      match rest with
      | TQuant _ :: _ => None
      | _ => cons (Rep a q) <$> build rest
      end
  | TAtom a :: rest => cons (Rep a Once) <$> build rest
  end.

Definition compile (p : string) : option (list node) :=
  tokenize p ≫= build.

Definition atom_ok (a : atom) (c : ascii) : bool :=
  match a with
  | Lit d => Ascii.eqb c d
  | Dot => negb (Ascii.eqb c Str.newline)
  | Word => is_word c
  end.

(** [$] holds at the end of the subject and just before a final newline. *)
Definition at_end (s : string) : bool :=
  match s with
  | EmptyString => true
  | String c EmptyString => Ascii.eqb c Str.newline
  | _ => false
  end.

(** Any number of [a], then the continuation [k]; [st] tells whether the
    position is still the start of the subject. *)
Fixpoint many (a : atom) (k : bool -> string -> bool) (st : bool) (s : string) : bool :=
  match s with
  | String c s' => (atom_ok a c && many a k false s') || k st s
  | EmptyString => k st s
  end.

(** Does the pattern match at the start of the subject (a prefix of it)? *)
Fixpoint run (r : list node) : bool -> string -> bool :=
  match r with
  | [] => fun _ _ => true
  | n :: r' =>
      let k := run r' in
      match n with
      | Bol => fun st s => st && k st s
      | Eol => fun st s => at_end s && k st s
      | Rep a Once => fun st s =>
          match s with
          | String c s' => atom_ok a c && k false s'
          | EmptyString => false
          end
      | Rep a Opt => fun st s =>
          match s with
          | String c s' => (atom_ok a c && k false s') || k st s
          | EmptyString => k st s
          end
      | Rep a Star => many a k
      | Rep a Plus => fun st s =>
          match s with
          | String c s' => atom_ok a c && many a k false s'
          | EmptyString => false
          end
      end
  end.

(** [re.match(p, key)] as a truth value; [None] when [p] is outside the
    fragment. *)
Definition rematch (p key : string) : option bool :=
  r ← compile p; Some (run r true key).

End Sre.

(** ** Outcomes of a run, the backend and the state threaded through calls *)

Inductive exn :=
| TypeError
| IndexError
| KeyError
| AttributeError (msg : option string).

(** [Beyond]: the run left what the embedding models (see the header). *)
Inductive result (A : Type) :=
| Ok (a : A)
| Raise (e : exn)
| Beyond.
Arguments Ok {A} a.
Arguments Raise {A} e.
Arguments Beyond {A}.

Record row := Row {
  minion_id : string;
  minion_key : string;
  key_type : string;
  state : string
}.

(** [faults] scripts the server: the head tells whether the next statement
    is served ([None], also when the script is exhausted) or fails with the
    given MySQL error number. [local] is what the inherited [local_keys]
    finds in the pki directory; [dropfiles] counts the calls of
    [salt.crypt.dropfile]. *)
Record world := World {
  table : list row;
  faults : list (option Z);
  local : list string;
  rotate_aes_key : bool;
  dropfiles : nat
}.

Definition M (A : Type) : Type := world -> result A * world.

Definition pure {A} (a : A) : M A := fun w => (Ok a, w).
Definition raise {A} (e : exn) : M A := fun w => (Raise e, w).
Definition bind {A B} (m : M A) (f : A -> M B) : M B :=
  fun w =>
    match m w with
    | (Ok a, w') => f a w'
    | (Raise e, w') => (Raise e, w')
    | (Beyond, w') => (Beyond, w')
    end.
Definition lift {A} (r : result A) : M A := fun w => (r, w).

Notation "x <~ m ;; k" := (bind m (fun x => k))
  (at level 100, m at next level, right associativity).

(** A [for] loop that threads a value through the iterations. *)
Fixpoint foldM {A B} (f : B -> A -> M B) (b : B) (l : list A) : M B :=
  match l with
  | [] => pure b
  | x :: l' => b' <~ f b x ;; foldM f b' l'
  end.

(** The same for code that does not touch the backend. *)
Fixpoint foldR {A B} (f : B -> A -> result B) (b : B) (l : list A) : result B :=
  match l with
  | [] => Ok b
  | x :: l' =>
      match f b x with
      | Ok b' => foldR f b' l'
      | Raise e => Raise e
      | Beyond => Beyond
      end
  end.

(** *** Statements *)

Inductive cond :=
| IdIs (n : string)
| StateIs (s : string)
| And (a b : cond)
| Or (a b : cond).

Inductive stmt :=
| SelectIdState
| SelectId (c : cond)
| SelectIdKey (c : cond)
| Update (new_state : string) (c : cond)
| DeleteWhere (c : cond)
| DeleteAll
| Insert (r : row).

Fixpoint holds (c : cond) (r : row) : bool :=
  match c with
  | IdIs n => String.eqb (minion_id r) n
  | StateIs s => String.eqb (state r) s
  | And a b => holds a r && holds b r
  | Or a b => holds a r || holds b r
  end.

Definition set_state (s : string) (r : row) : row :=
  {| minion_id := minion_id r; minion_key := minion_key r;
     key_type := key_type r; state := s |}.

(** What the server does with a statement it serves: an error number, or
    the rows it returns and the table afterwards. SQL does not fix where a
    new row comes in the order of a later [SELECT]; [Insert] puts it last,
    and the properties below state the place of a new row up to a
    permutation only. *)
Definition exec (q : stmt) (t : list row) : Z + (list (list string) * list row) :=
  match q with
  | SelectIdState => inr (map (fun r => [minion_id r; state r]) t, t)
  | SelectId c => inr (map (fun r => [minion_id r]) (filter (fun r => holds c r = true) t), t)
  | SelectIdKey c =>
      inr (map (fun r => [minion_id r; minion_key r]) (filter (fun r => holds c r = true) t), t)
  | Update s c => inr ([], map (fun r => if holds c r then set_state s r else r) t)
  | DeleteWhere c => inr ([], filter (fun r => holds c r = false) t)
  | DeleteAll => inr ([], [])
  | Insert r =>
      if existsb (fun r' => String.eqb (minion_id r') (minion_id r)) t
      then inl 1062
      else inr ([], t ++ [r])
  end.

(** A value can be interpolated between single quotes when it holds neither
    a quote nor a backslash. *)
Definition sql_safe (s : string) : bool :=
  negb (Str.contains "'" s) && negb (Str.contains "\" s).

Fixpoint cond_safe (c : cond) : bool :=
  match c with
  | IdIs n => sql_safe n
  | StateIs s => sql_safe s
  | And a b => cond_safe a && cond_safe b
  | Or a b => cond_safe a && cond_safe b
  end.

Definition stmt_safe (q : stmt) : bool :=
  match q with
  | SelectIdState | DeleteAll => true
  | SelectId c | SelectIdKey c | DeleteWhere c => cond_safe c
  | Update s c => sql_safe s && cond_safe c
  | Insert r =>
      sql_safe (minion_id r) && sql_safe (minion_key r) && sql_safe (key_type r)
      && sql_safe (state r)
  end.

(** *** [error_map] and [run_query] *)

Definition error_map : gmap Z string :=
  {[ 0 := "There was an error during a mysql-operation";
     1062 := "Minion {0} already exists in database";
     1064 := "Failed to add minion, mysql reported a syntax error" ]}.

Definition error_text (code : Z) : string :=
  match error_map !! code with
  | Some m => m
  | None => default EmptyString (error_map !! 0)
  end.

(** The second item of what [run_query] returns: rows, or a message. *)
Inductive payload :=
| Tuples (t : list (list string))
| Message (s : string).

Definition set_table (t : list row) (fs : list (option Z)) (w : world) : world :=
  {| table := t; faults := fs; local := local w;
     rotate_aes_key := rotate_aes_key w; dropfiles := dropfiles w |}.

(** [run_query]: the [except] branch turns a failure of the backend into
    [False] and a text; nothing is raised. A text that interpolates a quote
    or a backslash is not the statement it is meant to be: the run ends
    with [Beyond], and what the server does to the table is not modelled
    (the properties that speak of the table after a run suppose names that
    can be written into a statement). *)
Definition run_query (qry : stmt) : M (bool * payload) :=
  fun w =>
    if stmt_safe qry then
      match faults w with
      | Some code :: fs => (Ok (false, Message (error_text code)), set_table (table w) fs w)
      | fs =>
          match exec qry (table w) with
          | inl code => (Ok (false, Message (error_text code)), set_table (table w) (tail fs) w)
          | inr (data, t') => (Ok (true, Tuples data), set_table t' (tail fs) w)
          end
      end
    else (Beyond, w).

(** Iterating over the payload: the rows, or the characters of the message
    (each a one-character string, which has an item 0 and no item 1). *)
Fixpoint chars (s : string) : list (list string) :=
  match s with
  | String c s' => [String c EmptyString] :: chars s'
  | EmptyString => []
  end.

Definition entries (p : payload) : list (list string) :=
  match p with
  | Tuples t => t
  | Message s => chars s
  end.

Definition item (i : nat) (entry : list string) : result string :=
  match entry !! i with
  | Some x => Ok x
  | None => Raise IndexError
  end.

(** ** The [compat] decorator *)

Definition trans_map : gmap string string :=
  {[ "acc" := "minions";
     "rej" := "minions_rejected";
     "pre" := "minions_pre";
     "den" := "minions_denied" ]}.

(** One round of the loop: [if key in d: d[trans_map[key]] = d.pop(key)]. *)
Definition rename {V} (d : gmap string V) (kv : string * string) : gmap string V :=
  match d !! kv.1 with
  | Some v => <[kv.2 := v]> (delete kv.1 d)
  | None => d
  end.

Definition translate {V} (d : gmap string V) : gmap string V :=
  foldl rename d (map_to_list trans_map).

Definition compat {V} (func : M (gmap string V)) : M (gmap string V) :=
  d <~ func ;; pure (translate d).

(** ** [Mysql_key] *)

Definition ACC : string := "acc".
Definition PEND : string := "pre".
Definition REJ : string := "rej".
Definition DEN : string := "den".

(** [store_opts['table']]; there is one table, its name plays no role. *)
Definition store_table : string := "minions".

(** Argument [i] of a [str.format] call. *)
Definition arg (args : list string) (i : nat) : string :=
  default EmptyString (args !! i).

(** [msg.format(a)] for a message whose only replacement field is [{0}]. *)
Fixpoint format0 (msg a : string) : string :=
  match msg with
  | String "{" (String "0" (String "}" rest)) => a +:+ format0 rest a
  | String c rest => String c (format0 rest a)
  | EmptyString => EmptyString
  end.

(** Modelled from the spec: [salt.utils.isorted], which the module calls and
    does not define. It sorts names ignoring case (the spec: buckets are
    ordered lexicographically by name); as Python's [sorted] it is stable. *)
Fixpoint isorted_insert (x : string) (l : list string) : list string :=
  match l with
  | [] => [x]
  | y :: l' =>
      if String.leb (Str.lower x) (Str.lower y) then x :: y :: l'
      else y :: isorted_insert x l'
  end.

Fixpoint isorted (l : list string) : list string :=
  match l with
  | [] => []
  | x :: l' => isorted_insert x (isorted l')
  end.

(** [d[k]]. *)
Definition getitem {V} (d : gmap string V) (k : string) : result V :=
  match d !! k with
  | Some v => Ok v
  | None => Raise KeyError
  end.

(** *** [list_keys], [all_keys] *)

(** [minions[entry[1]].append(entry[0])], with the [KeyError] handler. *)
Definition place (minions : gmap string (list string)) (entry : list string)
  : result (gmap string (list string)) :=
  match item 1 entry with
  | Ok st =>
      match minions !! st with
      | Some names =>
          match item 0 entry with
          | Ok n => Ok (<[st := names ++ [n]]> minions)
          | Raise e => Raise e
          | Beyond => Beyond
          end
      | None =>
          match item 0 entry with
          | Ok n => Ok (<[st := [] ++ [n]]> (<[st := []]> minions))
          | Raise e => Raise e
          | Beyond => Beyond
          end
      end
  | Raise e => Raise e
  | Beyond => Beyond
  end.

Definition message_of (p : payload) : option string :=
  match p with
  | Message s => Some s
  | Tuples _ => None
  end.

Definition list_keys : M (gmap string (list string)) :=
  rd <~ run_query SelectIdState ;;
  let minions : gmap string (list string) :=
    {[ ACC := []; PEND := []; REJ := []; DEN := [] ]} in
  if rd.1 then lift (foldR place minions (entries rd.2))
  else raise (AttributeError (message_of rd.2)).

(** The inherited [local_keys]: a dict with the one key [local]. *)
Definition local_keys : M (gmap string (list string)) :=
  fun w => (Ok {[ "local" := local w ]}, w).

Definition all_keys : M (gmap string (list string)) :=
  compat (
    keys <~ list_keys ;;
    loc <~ local_keys ;;
    pure (loc ∪ keys)).

(** *** [name_match], [dict_match] *)

(** The reworked [match]: still a [str], or the [list] that [split] made. *)
Inductive pattern :=
| PStr (s : string)
| PList (l : list string).

Definition rework (match_ : string) : pattern :=
  let m := if Str.endswith match_ Str.star
           then Str.strip match_ Str.star +:+ "\w*"
           else match_ in
  if Str.contains Str.comma m then PList (Str.split m Str.comma) else PStr m.

Definition append_to (status key : string) (ret_matched : gmap string (list string))
  : gmap string (list string) :=
  let with_status :=
    match ret_matched !! status with
    | None => <[status := []]> ret_matched
    | Some _ => ret_matched
    end in
  <[status := default [] (with_status !! status) ++ [key]]> with_status.

(** The body of [for key in ...]. In the list branch ['^' + match + '$']
    adds a [str] and a [list]: a [TypeError] at the first [match_item]. *)
Definition try_key (m : pattern) (status : string)
    (ret_matched : gmap string (list string)) (key : string)
  : result (gmap string (list string)) :=
  match m with
  | PList items => foldR (fun rm (_ : string) => Raise TypeError) ret_matched items
  | PStr p =>
      match Sre.rematch ("^" +:+ p +:+ "$") key with
      | Some true => Ok (append_to status key ret_matched)
      | Some false => Ok ret_matched
      | None => Beyond
      end
  end.

Definition select (m : pattern) (matches : gmap string (list string))
  : result (gmap string (list string)) :=
  foldR (fun rm (sk : string * list string) => foldR (try_key m sk.1) rm (isorted sk.2))
        ∅ (map_to_list matches).

Definition name_match (match_ : string) (full : bool) : M (gmap string (list string)) :=
  matches <~ (if full then all_keys else list_keys) ;;
  lift (select (rework match_) matches).

Definition dict_match (match_dict : gmap string (list string))
  : M (gmap string (list string)) :=
  pure ∅.

(** *** [add_key] *)

Definition add_key (minion_id0 minion_key0 key_type0 : string) (key_state : option string)
  : M payload :=
  let exec_query :=
    Insert {| minion_id := minion_id0; minion_key := minion_key0;
              key_type := key_type0; state := default "pre" key_state |} in
  rd <~ run_query exec_query ;;
  if rd.1 then pure rd.2
  else raise (AttributeError ((fun m => format0 m minion_id0) <$> message_of rd.2)).

(** *** [list_status] *)

Definition list_status (match_ : string) : M (gmap string (list string)) :=
  compat (
    let fetch (st : string) : M (gmap string (list string)) :=
      let minions : gmap string (list string) := {[ st := [] ]} in
      rd <~ run_query (SelectId (StateIs st)) ;;
      if rd.1 then
        names <~ lift (foldR (fun acc e =>
                                match item 0 e with
                                | Ok x => Ok (acc ++ [x])
                                | Raise e => Raise e
                                | Beyond => Beyond
                                end) [] (entries rd.2)) ;;
        pure (<[match_ := names]> minions)
      else raise TypeError in
    if String.prefix "acc" match_ then fetch "acc"
    else if String.prefix "pre" match_ || String.prefix "un" match_ then fetch "pre"
    else if String.prefix "rej" match_ then fetch "rej"
    else if String.prefix "den" match_ then fetch "den"
    else if String.prefix "all" match_ then all_keys
    else raise IndexError).

(** *** The transitions *)

(** The resolved target of a command: by pattern, by mapping, or nothing. *)
Definition resolve (match_ : option string) (match_dict : option (gmap string (list string)))
  : M (gmap string (list string)) :=
  match match_, match_dict with
  | Some m, _ => name_match m false
  | None, Some d => pure d
  | None, None => pure ∅
  end.

Definition report (match_ : option string) (matches : gmap string (list string))
  : M (gmap string (list string)) :=
  match match_ with
  | Some m => name_match m false
  | None => dict_match matches
  end.

(** The text shared by [accept] and [reject],
    [UPDATE {0} SET state='{1}' WHERE minion_id='{2}' AND state='{3}'],
    to which the flag appends [ OR state='{3}']; in SQL [AND] binds tighter
    than [OR]. *)
Definition transition_query (flag : bool) (args : list string) : stmt :=
  let strict := And (IdIs (arg args 2)) (StateIs (arg args 3)) in
  Update (arg args 1) (if flag then Or strict (StateIs (arg args 3)) else strict).

(** [for state, minions in six.iteritems(matches): for minion in minions:]
    run the query that [mk] builds for the minion. *)
Definition for_each_minion (mk : string -> stmt) (matches : gmap string (list string))
  : M unit :=
  foldM (fun (_ : unit) (sm : string * list string) =>
           foldM (fun (_ : unit) minion => _ <~ run_query (mk minion) ;; pure tt) tt sm.2)
        tt (map_to_list matches).

Definition accept (match_ : option string) (match_dict : option (gmap string (list string)))
    (include_rejected : bool) : M (gmap string (list string)) :=
  compat (
    matches <~ resolve match_ match_dict ;;
    _ <~ for_each_minion
           (fun minion =>
              if include_rejected
              then transition_query include_rejected [store_table; ACC; minion; PEND; REJ]
              else transition_query include_rejected [store_table; ACC; minion; PEND])
           matches ;;
    report match_ matches).

Definition accept_all : M (gmap string (list string)) :=
  compat (
    data <~ list_keys ;;
    pending <~ lift (getitem data PEND) ;;
    _ <~ foldM (fun (_ : unit) key =>
                  _ <~ run_query (Update ACC (IdIs key)) ;; pure tt)
               tt pending ;;
    list_keys).

Definition reject (match_ : option string) (match_dict : option (gmap string (list string)))
    (include_accepted : bool) : M (gmap string (list string)) :=
  compat (
    matches <~ resolve match_ match_dict ;;
    _ <~ for_each_minion
           (fun minion =>
              if include_accepted
              then transition_query include_accepted [store_table; REJ; minion; PEND; ACC]
              else transition_query include_accepted [store_table; REJ; minion; ACC])
           matches ;;
    report match_ matches).

Definition reject_all : M (gmap string (list string)) :=
  compat (
    data <~ list_keys ;;
    pending <~ lift (getitem data PEND) ;;
    _ <~ foldM (fun (_ : unit) key =>
                  _ <~ run_query (Update REJ (And (StateIs PEND) (IdIs key))) ;; pure tt)
               tt pending ;;
    list_keys).

(** [if self.opts.get('rotate_aes_key'): salt.crypt.dropfile(...)]. *)
Definition rotate : M unit :=
  fun w =>
    (Ok tt,
     if rotate_aes_key w
     then {| table := table w; faults := faults w; local := local w;
             rotate_aes_key := rotate_aes_key w; dropfiles := S (dropfiles w) |}
     else w).

Definition delete_key (match_ : option string) (match_dict : option (gmap string (list string)))
    (preserve_minions : bool) : M (gmap string (list string)) :=
  compat (
    matches <~ resolve match_ match_dict ;;
    ret <~ foldM (fun (ret : option bool) (sk : string * list string) =>
                    foldM (fun (_ : option bool) key =>
                             rd <~ run_query (DeleteWhere (IdIs key)) ;; pure (Some rd.1))
                          ret sk.2)
                 None (map_to_list matches) ;;
    match ret with
    | Some true => _ <~ rotate ;; report match_ matches
    | _ => raise (AttributeError None)
    end).

Definition delete_all : M (gmap string (list string)) :=
  compat (
    rd <~ run_query DeleteAll ;;
    if rd.1 then _ <~ rotate ;; list_keys
    else raise (AttributeError (message_of rd.2))).

(** *** [key_str], [key_str_all] *)

(** [minion_keys[state] = {}], the query for the state, and
    [minion_keys[state][entry[0]] = entry[1]] for every entry. *)
Definition keys_of_state (minion_keys : gmap string (gmap string string)) (st : string)
  : M (gmap string (gmap string string)) :=
  rd <~ run_query (SelectIdKey (StateIs st)) ;;
  lift (foldR (fun mk entry =>
                 match item 1 entry with
                 | Ok v =>
                     match item 0 entry with
                     | Ok n => Ok (<[st := <[n := v]> (default ∅ (mk !! st))]> mk)
                     | Raise e => Raise e
                     | Beyond => Beyond
                     end
                 | Raise e => Raise e
                 | Beyond => Beyond
                 end)
              (<[st := ∅]> minion_keys) (entries rd.2)).

Definition key_str (match_ : string) : M (gmap string (gmap string string)) :=
  compat (
    matched <~ name_match match_ false ;;
    foldM (fun mk (sk : string * list string) => keys_of_state mk sk.1)
          ∅ (map_to_list matched)).

Definition key_str_all : M (gmap string (gmap string string)) :=
  compat (
    data <~ list_keys ;;
    foldM (fun mk (sk : string * list string) => keys_of_state mk sk.1)
          ∅ (map_to_list data)).

(** ** Vocabulary of the statements *)

(** The names of the rows in state [s], in table order. *)
Definition names_in (s : string) (t : list row) : list string :=
  minion_id <$> filter (fun r => state r = s) t.

(** The four internal state codes. *)
Definition internal : list string := [ACC; PEND; REJ; DEN].

(** The table has a row whose state is [s]. *)
Definition has_state (s : string) (t : list row) : Prop :=
  Exists (fun r => state r = s) t.

(** What the loop of [list_keys] builds from the rows, bucket by bucket. *)
Definition bucket_rows (m : gmap string (list string)) (t : list row)
  : gmap string (list string) :=
  foldl (fun m r => <[state r := default [] (m !! state r) ++ [minion_id r]]> m) m t.

Definition empty_listing : gmap string (list string) :=
  {[ ACC := []; PEND := []; REJ := []; DEN := [] ]}.

Definition listing (t : list row) : gmap string (list string) :=
  bucket_rows empty_listing t.

(** The characters that have a meaning of their own in a pattern. *)
Definition special (c : ascii) : bool := Str.contains c ".^$*+?{[()|\".

(** A character that stands for itself in a pattern. *)
Definition literal (c : ascii) : bool := negb (special c).

Definition no_comma (c : ascii) : bool := negb (Ascii.eqb c Str.comma).

Definition final_newline : string := String Str.newline EmptyString.

(** A literal prefix followed by word characters only. *)
Definition glob_match (prefix key : string) : Prop :=
  exists tail, Str.all Sre.is_word tail = true /\ key = prefix +:+ tail.

(** The names of a bucket that pass [f], in the order of [isorted]; no
    bucket when none passes. *)
Definition keep (f : string -> bool) (keys : list string) : option (list string) :=
  match filter (fun k => f k = true) (isorted keys) with
  | [] => None
  | l => Some l
  end.

(** The names listed under [s]; none when there is no such bucket. *)
Definition bucket (d : gmap string (list string)) (s : string) : list string :=
  default [] (d !! s).

(** The nodes and the tokens of a string of literal characters. *)
Fixpoint lits (p : string) : list Sre.node :=
  match p with
  | String c p' => Sre.Rep (Sre.Lit c) Sre.Once :: lits p'
  | EmptyString => []
  end.

Fixpoint lit_tokens (p : string) : list Sre.token :=
  match p with
  | String c p' => Sre.TAtom (Sre.Lit c) :: lit_tokens p'
  | EmptyString => []
  end.

(** The token list does not start with a quantifier. *)
Definition quant_free_head (ts : list Sre.token) : Prop :=
  match ts with
  | Sre.TQuant _ :: _ => False
  | _ => True
  end.

(** A continuation that does not look at the start flag. *)
Definition flagless (r : list Sre.node) : Prop :=
  forall st1 st2 s, Sre.run r st1 s = Sre.run r st2 s.

(** One round of the inner loop of [name_match] for a string pattern whose
    matcher is [f]. *)
Definition select_step (f : string -> bool) (status : string)
    (rm : gmap string (list string)) (key : string) : gmap string (list string) :=
  if f key then append_to status key rm else rm.

(** ** Sample stores *)

Definition minion (n s : string) : row :=
  {| minion_id := n; minion_key := "-----BEGIN PUBLIC KEY-----ABCDEFGH-----END PUBLIC KEY-----";
     key_type := "zmq"; state := s |}.

(** A served backend holding the table [t]. *)
Definition store (t : list row) : world :=
  {| table := t; faults := []; local := []; rotate_aes_key := false; dropfiles := 0 |}.

Definition web_store : world :=
  store [minion "web01" "pre"; minion "web-01" "pre"; minion "web1x" "pre"].

(** ** Vocabulary of the transitions *)

(** The table after a served [UPDATE ... SET state=s WHERE c]. *)
Definition apply_update (s : string) (c : cond) (t : list row) : list row :=
  map (fun r => if holds c r then set_state s r else r) t.

(** The names a mapping lists, in the order the loops visit them. *)
Definition names_of (d : gmap string (list string)) : list string :=
  map_to_list d ≫= snd.

(** The row after the listed identities in state [from] went to [to_]. *)
Definition promote (from to_ : string) (names : list string) (r : row) : row :=
  if bool_decide (state r = from /\ minion_id r ∈ names) then set_state to_ r else r.

(** The row after the listed identities went to [to_] whatever their state. *)
Definition promote_any (to_ : string) (names : list string) (r : row) : row :=
  if bool_decide (minion_id r ∈ names) then set_state to_ r else r.

(** No internal code is a key of what the operation returns. *)
Definition renamed {V} (op : M (gmap string V)) : Prop :=
  forall w d k, (op w).1 = Ok d -> k ∈ internal -> d !! k = None.

(** The row after every identity in state [from] went to [to_]. *)
Definition promote_state (from to_ : string) (r : row) : row :=
  if bool_decide (state r = from) then set_state to_ r else r.

Definition two_pending : world := store [minion "m1" "pre"; minion "m2" "pre"].

Definition one_rejected : world := store [minion "x" "rej"].

Definition odd_state_store : world :=
  store [minion "m1" "pre"; minion "m2" "acc"; minion "m3" "odd"].

(** ** Vocabulary of the frame *)

(** [r'] is the row [r] of the same identity, and is [r] itself when the
    identity is not among [names]. *)
Definition keeps_outside (names : list string) (r r' : row) : Prop :=
  minion_id r' = minion_id r /\ (minion_id r ∉ names -> r' = r).

(** The table [t'] has the rows of [t], those outside [names] unchanged. *)
Definition kept (names : list string) (t t' : list row) : Prop :=
  Forall2 (keeps_outside names) t t'.

(** Every run of [m] takes the table to one related to it by [R], whatever
    the outcome. *)
Definition steps (R : list row -> list row -> Prop) {A} (m : M A) : Prop :=
  forall w, R (table w) (table (m w).2).

(** The store that the demonstration at the end of the module builds. *)
Definition demo_rows : list row :=
  [ {| minion_id := "minion_pre"; minion_key := "ABCDEFGH"; key_type := "zmq"; state := "pre" |};
    {| minion_id := "minion_rej"; minion_key := "IJKLMNOP"; key_type := "zmq"; state := "rej" |};
    {| minion_id := "minion"; minion_key := "QRSTUVWXY"; key_type := "zmq"; state := "acc" |};
    {| minion_id := "minion2"; minion_key := "123456789"; key_type := "zmq"; state := "acc" |} ].

Definition demo : world := store demo_rows.

(** ** Vocabulary of the further properties *)

(** The world with the table [t], a script without faults, and [n] more
    calls of [salt.crypt.dropfile] when the option asks for them. *)
Definition served_world (t : list row) (n : nat) (w : world) : world :=
  {| table := t; faults := []; local := local w;
     rotate_aes_key := rotate_aes_key w;
     dropfiles := if rotate_aes_key w then n + dropfiles w else dropfiles w |}.

(** The row [add_key] inserts. *)
Definition new_row (n k ty : string) (key_state : option string) : row :=
  {| minion_id := n; minion_key := k; key_type := ty; state := default "pre" key_state |}.

Definition row_safe (r : row) : bool :=
  sql_safe (minion_id r) && sql_safe (minion_key r) && sql_safe (key_type r)
  && sql_safe (state r).

(** The names of the rows in state [s1] or [s2], in table order. *)
Definition names_in2 (s1 s2 : string) (t : list row) : list string :=
  minion_id <$> filter (fun r => state r = s1 \/ state r = s2) t.

(** The body of the loop of [delete_key]: [ret] is what the statement for
    the current key gave. *)
Definition delete_step (ret : option bool) (key : string) : M (option bool) :=
  rd <~ run_query (DeleteWhere (IdIs key)) ;; pure (Some rd.1).

(** The state that [list_status] asks the table for, by the chain of
    [startswith] tests; [None] when no state is asked for. *)
Definition status_word (match_ : string) : option string :=
  if String.prefix "acc" match_ then Some "acc"
  else if String.prefix "pre" match_ || String.prefix "un" match_ then Some "pre"
  else if String.prefix "rej" match_ then Some "rej"
  else if String.prefix "den" match_ then Some "den"
  else None.

(** [r'] is [r], or [r] was in state [from] and [r'] is [r] in state [to_]. *)
Definition moved (from to_ : string) (r r' : row) : Prop :=
  r' = r \/ (state r = from /\ r' = set_state to_ r).

(** Row by row, [t'] is [t] but for rows moved from [from] to [to_]. *)
Definition only_moved (from to_ : string) (t t' : list row) : Prop :=
  Forall2 (moved from to_) t t'.

(** [r'] is [r], or [r] in state [to_]. *)
Definition set_to (to_ : string) (r r' : row) : Prop :=
  r' = r \/ r' = set_state to_ r.

Definition only_set_to (to_ : string) (t t' : list row) : Prop :=
  Forall2 (set_to to_) t t'.

(** The keys of the rows in state [s], by name (of two rows with one name
    the later one counts). *)
Definition key_map (s : string) (t : list row) : gmap string string :=
  foldl (fun km r => <[minion_id r := minion_key r]> km) ∅ (filter (fun r => state r = s) t).

(** * Properties *)

(** ** The string functions and the matcher on examples *)

Example rematch_web01 : Sre.rematch "^web\w*$" "web01" = Some true.
Proof. reflexivity. Qed.
Example rematch_web_dash : Sre.rematch "^web\w*$" "web-01" = Some false.
Proof. reflexivity. Qed.
Example rematch_dot : Sre.rematch "^web.1$" "webx1" = Some true.
Proof. reflexivity. Qed.
Example strip_both : Str.strip "**we*b**" Str.star = "we*b".
Proof. reflexivity. Qed.
Example split_ex : Str.split "a,b," Str.comma = ["a"; "b"; ""].
Proof. reflexivity. Qed.

(** ** The state monad *)

Lemma bind_ok {A B} (m : M A) (f : A -> M B) w a w' :
  m w = (Ok a, w') -> bind m f w = f a w'.
Proof. intros H. unfold bind. by rewrite H. Qed.

Lemma bind_raise {A B} (m : M A) (f : A -> M B) w e w' :
  m w = (Raise e, w') -> bind m f w = (Raise e, w').
Proof. intros H. unfold bind. by rewrite H. Qed.

Lemma set_table_same w : set_table (table w) (faults w) w = w.
Proof. by destruct w. Qed.

(** ** [list_keys] *)

Section Listing.

Implicit Types (m : gmap string (list string)) (t : list row) (r : row).

Lemma place_row m r :
  place m [minion_id r; state r]
  = Ok (<[state r := default [] (m !! state r) ++ [minion_id r]]> m).
Proof.
  unfold place. cbn. destruct (m !! state r) eqn:E; cbn; [done|].
  by rewrite insert_insert_eq.
Qed.

Lemma foldR_place t : forall m,
  foldR place m (map (fun r => [minion_id r; state r]) t) = Ok (bucket_rows m t).
Proof.
  induction t as [|r t IH]; intros m; [done|].
  cbn [map foldR]. rewrite place_row. apply IH.
Qed.

Lemma names_in_cons_eq r t : names_in (state r) (r :: t) = minion_id r :: names_in (state r) t.
Proof. unfold names_in. by rewrite filter_cons_True. Qed.

Lemma names_in_cons_ne s r t : state r <> s -> names_in s (r :: t) = names_in s t.
Proof. intros H. unfold names_in. by rewrite filter_cons_False. Qed.

Lemma bucket_rows_lookup t : forall m s,
  bucket_rows m t !! s =
  match m !! s, names_in s t with
  | Some l, ns => Some (l ++ ns)
  | None, [] => None
  | None, ns => Some ns
  end.
Proof.
  induction t as [|r t IH]; intros m s.
  - cbn. destruct (m !! s); [by rewrite app_nil_r | done].
  - cbn [bucket_rows foldl]. fold (bucket_rows (<[state r := default [] (m !! state r) ++ [minion_id r]]> m) t).
    rewrite IH. destruct (decide (state r = s)) as [<-|Hne].
    + rewrite lookup_insert_eq, names_in_cons_eq.
      destruct (m !! state r); cbn; [by rewrite <- app_assoc | done].
    + rewrite lookup_insert_ne by done. by rewrite names_in_cons_ne.
Qed.

Lemma names_in_nil_iff s t : names_in s t = [] <-> ~ has_state s t.
Proof.
  unfold names_in, has_state. rewrite Exists_exists. split.
  - intros H [r [Hin Hs]]. apply fmap_nil_inv in H.
    assert (r ∈ filter (fun r => state r = s) t) as Hr
      by (by apply list_elem_of_filter).
    rewrite H in Hr. by apply not_elem_of_nil in Hr.
  - intros H. destruct (filter (fun r => state r = s) t) as [|r l] eqn:E; [done|].
    exfalso. apply H. exists r.
    assert (r ∈ filter (fun r => state r = s) t) as Hr by (rewrite E; left).
    by apply list_elem_of_filter in Hr as [? ?].
Qed.

Lemma empty_listing_lookup s :
  empty_listing !! s = if decide (s ∈ internal) then Some [] else None.
Proof.
  unfold empty_listing, internal, ACC, PEND, REJ, DEN.
  case_decide as H.
  - rewrite !elem_of_cons in H.
    destruct H as [->|[->|[->|[->|H]]]]; try done. by apply not_elem_of_nil in H.
  - assert (forall k, k ∈ [ "acc"; "pre"; "rej"; "den" ] -> k <> s) as Hk
      by (by intros k Hk ->).
    rewrite !lookup_insert_ne by (apply Hk; set_solver).
    apply lookup_singleton_ne, Hk. set_solver.
Qed.

Lemma listing_lookup t s :
  listing t !! s =
  if decide (s ∈ internal) then Some (names_in s t)
  else match names_in s t with [] => None | ns => Some ns end.
Proof.
  unfold listing. rewrite bucket_rows_lookup, empty_listing_lookup.
  by case_decide.
Qed.

(** What a served [SELECT minion_id, state] hands to [list_keys]. *)
Lemma run_query_select_ok w p w' :
  run_query SelectIdState w = (Ok (true, p), w') ->
  p = Tuples (map (fun r => [minion_id r; state r]) (table w))
  /\ w' = set_table (table w) (tail (faults w)) w.
Proof.
  unfold run_query. cbn. destruct (faults w) as [|[c|] fs]; cbn; intros H;
    by simplify_eq.
Qed.

Lemma list_keys_served w p w' :
  run_query SelectIdState w = (Ok (true, p), w') ->
  list_keys w = (Ok (listing (table w)), w').
Proof.
  intros H. unfold list_keys. rewrite (bind_ok _ _ _ _ _ H). cbn.
  apply run_query_select_ok in H as [-> _]. cbn.
  unfold lift. by rewrite foldR_place.
Qed.

Lemma list_keys_healthy w :
  faults w = [] -> list_keys w = (Ok (listing (table w)), w).
Proof.
  intros Hf. destruct w as [t fs l ro d]. cbn in Hf. subst fs.
  unfold list_keys, bind, run_query. cbn. unfold lift. by rewrite foldR_place.
Qed.

End Listing.

(** C10. Whenever the read of the table is served, [list_keys] returns a
    listing that binds each of the four internal codes [acc], [pre], [rej]
    and [den] to the list of the names stored in that state (the empty list
    when there is none); a row whose state is none of the four does not make
    the listing fail: its name is listed under a bucket keyed by that state,
    a bucket that exists only when such a row does. *)
Theorem list_keys_buckets w p w' :
  run_query SelectIdState w = (Ok (true, p), w') ->
  exists minions,
    list_keys w = (Ok minions, w')
    /\ (forall s, s ∈ internal -> minions !! s = Some (names_in s (table w)))
    /\ (forall s, s ∉ internal -> has_state s (table w) ->
          minions !! s = Some (names_in s (table w)) /\ names_in s (table w) <> [])
    /\ (forall s, s ∉ internal -> ~ has_state s (table w) -> minions !! s = None).
Proof.
  intros H. exists (listing (table w)). split; [by eapply list_keys_served|].
  split; [|split]; intros s Hs.
  - rewrite listing_lookup. by case_decide.
  - intros Hx. rewrite listing_lookup. case_decide; [done|].
    assert (names_in s (table w) <> []) as Hne by (by rewrite names_in_nil_iff; intros Hn).
    split; [|done]. by destruct (names_in s (table w)).
  - intros Hx. rewrite listing_lookup. case_decide; [done|].
    apply names_in_nil_iff in Hx. by rewrite Hx.
Qed.

(** ** Patterns made of literal characters *)

Lemma append_nil_r p : p +:+ EmptyString = p.
Proof. induction p as [|c p IH]; [done|]. change (String c (p +:+ EmptyString) = String c p). by rewrite IH. Qed.

Lemma append_assoc p q r : (p +:+ q) +:+ r = p +:+ (q +:+ r).
Proof. induction p as [|c p IH]; [done|]. change (String c ((p +:+ q) +:+ r) = String c (p +:+ (q +:+ r))). by rewrite IH. Qed.

Section Literal.

Import Sre.

#[local] Arguments String.append !_ _ : simpl nomatch.

Lemma literal_token c :
  literal c = true ->
  Ascii.eqb c "\" = false /\ token_of c = Some (TAtom (Lit c)) /\ c <> Str.star.
Proof.
  destruct c as [[] [] [] [] [] [] [] []]; vm_compute; intros H;
    try discriminate H; repeat split; discriminate.
Qed.

Lemma tokenize_literal p rest :
  Str.all literal p = true ->
  tokenize (p +:+ rest) = (fun ts => lit_tokens p ++ ts) <$> tokenize rest.
Proof.
  induction p as [|c p IH]; intros H; cbn.
  - by destruct (tokenize rest).
  - cbn in H. apply andb_prop in H as [Hc Hp].
    destruct (literal_token c Hc) as (-> & -> & _).
    rewrite (IH Hp). by destruct (tokenize rest).
Qed.

Lemma build_lits p ts :
  quant_free_head ts ->
  build (lit_tokens p ++ ts) = (fun r => lits p ++ r) <$> build ts.
Proof.
  intros Hts. induction p as [|c p IH]; cbn [lit_tokens lits app].
  - by destruct (build ts).
  - assert (build (TAtom (Lit c) :: lit_tokens p ++ ts)
            = cons (Rep (Lit c) Once) <$> build (lit_tokens p ++ ts)) as ->.
    { destruct p as [|c' p]; cbn [lit_tokens app]; [|done].
      destruct ts as [|[| | |q] ts]; cbn in Hts |- *; done. }
    rewrite IH. by destruct (build ts).
Qed.

Lemma compile_exact p :
  Str.all literal p = true ->
  compile ("^" +:+ p +:+ "$") = Some (Bol :: lits p ++ [Eol]).
Proof.
  intros H. unfold compile.
  change ("^" +:+ p +:+ "$") with (String "^" (p +:+ "$")).
  cbn [tokenize]. change (Ascii.eqb "^" "\") with false. cbn [token_of].
  change (token_of "^") with (Some TBol).
  rewrite (tokenize_literal p "$" H). cbn.
  change (TBol :: lit_tokens p ++ [TEol]) with ([TBol] ++ (lit_tokens p ++ [TEol])).
  cbn [app build]. by rewrite build_lits.
Qed.

Lemma compile_glob p :
  Str.all literal p = true ->
  compile ("^" +:+ (p +:+ "\w*") +:+ "$") = Some (Bol :: lits p ++ [Rep Word Star; Eol]).
Proof.
  intros H. unfold compile.
  change ("^" +:+ (p +:+ "\w*") +:+ "$") with (String "^" ((p +:+ "\w*") +:+ "$")).
  cbn [tokenize]. change (Ascii.eqb "^" "\") with false. cbn [token_of].
  change (token_of "^") with (Some TBol).
  assert ((p +:+ "\w*") +:+ "$" = p +:+ "\w*$") as -> by apply append_assoc.
  rewrite (tokenize_literal p "\w*$" H). cbn.
  change (build (TBol :: lit_tokens p ++ [TAtom Word; TQuant Star; TEol]))
    with (cons Bol <$> build (lit_tokens p ++ [TAtom Word; TQuant Star; TEol])).
  by rewrite build_lits.
Qed.

Lemma run_lits p r st s :
  flagless r ->
  run (lits p ++ r) st s = true <-> exists s', s = p +:+ s' /\ run r false s' = true.
Proof.
  intros Hr. revert st s. induction p as [|c p IH]; intros st s; cbn [lits app].
  - rewrite (Hr st false). split; [by exists s | by intros (s' & -> & ?)].
  - cbn [run]. destruct s as [|c' s].
    + split; [done | by intros (s' & ? & ?)].
    + fold (run (lits p ++ r)). cbn [atom_ok]. rewrite andb_true_iff, IH. split.
      * intros [Hc (s' & -> & Hs')]. apply Ascii.eqb_eq in Hc as ->. by exists s'.
      * intros (s' & Heq & Hs'). cbn in Heq. injection Heq as -> ->.
        split; [apply Ascii.eqb_refl | by exists s'].
Qed.

Lemma at_end_iff s : at_end s = true <-> s = EmptyString \/ s = final_newline.
Proof.
  destruct s as [|c [|c' s]]; cbn.
  - split; [by left | done].
  - rewrite Ascii.eqb_eq. unfold final_newline. split.
    + intros ->. by right.
    + by intros [?|[= ->]].
  - split; [done | by intros [?|?]].
Qed.

Lemma flagless_eol : flagless [Eol].
Proof. by intros st1 st2 s. Qed.

Lemma many_word_eol st s :
  many Word (run [Eol]) st s = true <->
  exists w s', s = w +:+ s' /\ Str.all is_word w = true /\ at_end s' = true.
Proof.
  revert st. induction s as [|c s IH]; intros st; cbn [many].
  - cbn. split; [by exists EmptyString, EmptyString|done].
  - rewrite orb_true_iff, andb_true_iff, IH. split.
    + intros [[Hc (w & s' & -> & Hw & He)] | He].
      * exists (String c w), s'. cbn in Hc. cbn. by rewrite Hc, Hw.
      * exists EmptyString, (String c s). cbn in He |- *.
        by rewrite andb_true_r in He.
    + intros ([|c' w] & s' & Heq & Hw & He); cbn in Heq.
      * subst s'. right. cbn. by rewrite andb_true_r.
      * injection Heq as <- ->. cbn in Hw. apply andb_prop in Hw as [? ?].
        left. split; [done | by exists w, s'].
Qed.

Lemma flagless_word_star_eol : flagless [Rep Word Star; Eol].
Proof.
  intros st1 st2 s.
  change (many Word (run [Eol]) st1 s = many Word (run [Eol]) st2 s).
  destruct (many Word (run [Eol]) st1 s) eqn:E1, (many Word (run [Eol]) st2 s) eqn:E2;
    try done.
  - apply (proj1 (many_word_eol st1 s)), (proj2 (many_word_eol st2 s)) in E1. congruence.
  - apply (proj1 (many_word_eol st2 s)), (proj2 (many_word_eol st1 s)) in E2. congruence.
Qed.

(** The exact pattern selects the name itself and the name followed by
    one final newline. *)
Lemma run_exact p key :
  run (Bol :: lits p ++ [Eol]) true key = true
  <-> key = p \/ key = p +:+ final_newline.
Proof.
  cbn [run]. fold (run (lits p ++ [Eol])). cbn [andb].
  rewrite (run_lits p [Eol] true key flagless_eol). cbn [run]. split.
  - intros (s' & -> & He). rewrite andb_true_r in He.
    apply at_end_iff in He as [-> | ->]; [left | by right].
    apply append_nil_r.
  - intros [-> | ->].
    + exists EmptyString. by rewrite append_nil_r.
    + by exists final_newline.
Qed.

Lemma run_glob p key :
  run (Bol :: lits p ++ [Rep Word Star; Eol]) true key = true
  <-> exists tail, Str.all is_word tail = true
        /\ (key = p +:+ tail \/ key = p +:+ tail +:+ final_newline).
Proof.
  cbn [run]. fold (run (lits p ++ [Rep Word Star; Eol])). cbn [andb].
  rewrite (run_lits p [Rep Word Star; Eol] true key flagless_word_star_eol).
  cbn [run]. split.
  - intros (s' & -> & Hm). apply many_word_eol in Hm as (w & s2 & -> & Hw & He).
    exists w. split; [done|]. apply at_end_iff in He as [-> | ->]; [left | by right].
    by rewrite append_nil_r.
  - intros (w & Hw & [-> | ->]).
    + exists w. split; [done|]. apply many_word_eol. exists w, EmptyString.
      by rewrite append_nil_r.
    + exists (w +:+ final_newline). split; [done|]. apply many_word_eol.
      by exists w, final_newline.
Qed.

End Literal.

(** ** [isorted] *)

Lemma isorted_insert_elem k x l : k ∈ isorted_insert x l <-> k = x \/ k ∈ l.
Proof.
  induction l as [|y l IH]; cbn.
  - by rewrite elem_of_cons.
  - destruct (String.leb _ _); [by rewrite elem_of_cons|].
    rewrite !elem_of_cons, IH. tauto.
Qed.

Lemma isorted_elem k l : k ∈ isorted l <-> k ∈ l.
Proof.
  induction l as [|x l IH]; [done|]. cbn.
  by rewrite isorted_insert_elem, elem_of_cons, IH.
Qed.

Lemma isorted_insert_perm x l : Permutation (isorted_insert x l) (x :: l).
Proof.
  induction l as [|y l IH]; cbn; [done|].
  destruct (String.leb _ _); [done|]. rewrite IH. apply perm_swap.
Qed.

Lemma isorted_perm l : Permutation (isorted l) l.
Proof.
  induction l as [|x l IH]; [done|]. cbn.
  by rewrite isorted_insert_perm, IH.
Qed.

(** ** [rework] *)

Section Rework.

#[local] Arguments String.append !_ _ : simpl nomatch.

Lemma literal_not_star c : literal c = true -> Ascii.eqb c Str.star = false.
Proof.
  intros H. destruct (literal_token c H) as (_ & _ & Hne).
  by apply Ascii.eqb_neq.
Qed.

Lemma endswith_literal p : Str.all literal p = true -> Str.endswith p Str.star = false.
Proof.
  induction p as [|c p IH]; [done|]. cbn. intros H.
  apply andb_prop in H as [Hc Hp]. destruct p; [by apply literal_not_star | by apply IH].
Qed.

Lemma endswith_app_star p : Str.endswith (p +:+ "*") Str.star = true.
Proof.
  induction p as [|c p IH]; [done|]. cbn [String.append Str.endswith].
  destruct (p +:+ "*") eqn:E; [by destruct p | done].
Qed.

Lemma rstrip_app_star p :
  Str.all literal p = true -> Str.rstrip (p +:+ "*") Str.star = p.
Proof.
  induction p as [|c p IH]; [done|]. cbn. intros H.
  apply andb_prop in H as [Hc Hp]. rewrite (IH Hp).
  destruct p; [by rewrite (literal_not_star c Hc) | done].
Qed.

Lemma strip_app_star p :
  Str.all literal p = true -> Str.strip (p +:+ "*") Str.star = p.
Proof.
  intros H. unfold Str.strip. destruct p as [|c p]; [done|].
  cbn [String.append Str.lstrip]. cbn in H. apply andb_prop in H as [Hc Hp].
  rewrite (literal_not_star c Hc).
  apply (rstrip_app_star (String c p)). cbn. by rewrite Hc, Hp.
Qed.

Lemma contains_comma_app p q :
  Str.contains Str.comma (p +:+ q) = Str.contains Str.comma p || Str.contains Str.comma q.
Proof.
  induction p as [|c p IH]; [done|]. cbn. by rewrite IH, orb_assoc.
Qed.

Lemma contains_no_comma p :
  Str.all no_comma p = true -> Str.contains Str.comma p = false.
Proof.
  induction p as [|c p IH]; [done|]. cbn. intros H.
  apply andb_prop in H as [Hc Hp]. rewrite (IH Hp).
  unfold no_comma in Hc. by destruct (Ascii.eqb c Str.comma).
Qed.

Lemma rework_exact p :
  Str.all literal p = true -> Str.all no_comma p = true -> rework p = PStr p.
Proof.
  intros Hl Hc. unfold rework.
  by rewrite (endswith_literal p Hl), (contains_no_comma p Hc).
Qed.

Lemma rework_glob p :
  Str.all literal p = true -> Str.all no_comma p = true ->
  rework (p +:+ "*") = PStr (p +:+ "\w*").
Proof.
  intros Hl Hc. unfold rework.
  rewrite endswith_app_star, (strip_app_star p Hl), contains_comma_app.
  by rewrite (contains_no_comma p Hc).
Qed.

End Rework.

(** ** [select]: the loops of [name_match] *)

Section Select.

Context (p : string) (r : list Sre.node).
Hypothesis compiled : Sre.compile ("^" +:+ p +:+ "$") = Some r.

Implicit Types (rm acc : gmap string (list string)) (keys : list string).

Local Abbreviation f := (Sre.run r true).
Local Abbreviation step := (select_step (Sre.run r true)).

Lemma try_key_step status rm key :
  try_key (PStr p) status rm key = Ok (step status rm key).
Proof.
  unfold try_key, Sre.rematch, select_step. rewrite compiled. cbn.
  by destruct (Sre.run r true key).
Qed.

Lemma foldR_try_key status keys : forall rm,
  foldR (try_key (PStr p) status) rm keys = Ok (foldl (step status) rm keys).
Proof.
  induction keys as [|k keys IH]; intros rm; [done|].
  cbn [foldR foldl]. rewrite try_key_step. apply IH.
Qed.

Lemma append_to_lookup status key rm s :
  append_to status key rm !! s =
  if decide (status = s) then Some (default [] (rm !! status) ++ [key]) else rm !! s.
Proof.
  unfold append_to. case_decide as H.
  - subst s. rewrite lookup_insert_eq.
    destruct (rm !! status) eqn:E; [by rewrite E | by rewrite lookup_insert_eq].
  - rewrite lookup_insert_ne by done.
    destruct (rm !! status); [done | by rewrite lookup_insert_ne].
Qed.

Lemma foldl_step_lookup status keys : forall rm s,
  foldl (step status) rm keys !! s =
  if decide (status = s) then
    match filter (fun k => f k = true) keys with
    | [] => rm !! s
    | l => Some (default [] (rm !! s) ++ l)
    end
  else rm !! s.
Proof.
  induction keys as [|k keys IH]; intros rm s; cbn [foldl].
  - by case_decide.
  - rewrite IH. unfold select_step. case_decide as H; [subst s|].
    + destruct (f k) eqn:Ek.
      * rewrite filter_cons_True by done.
        rewrite append_to_lookup. rewrite decide_True by done. cbn.
        destruct (filter _ keys); [done | by rewrite <- app_assoc].
      * rewrite filter_cons_False by (by rewrite Ek). done.
    + destruct (f k); [|done]. rewrite append_to_lookup. by rewrite decide_False.
Qed.

Lemma foldR_buckets (kvs : list (string * list string)) : forall acc,
  foldR (fun rm sk => foldR (try_key (PStr p) sk.1) rm (isorted sk.2)) acc kvs
  = Ok (foldl (fun rm sk => foldl (step sk.1) rm (isorted sk.2)) acc kvs).
Proof.
  induction kvs as [|kv kvs IH]; intros acc; [done|].
  cbn [foldR foldl]. rewrite foldR_try_key. apply IH.
Qed.

Lemma foldl_buckets_lookup (kvs : list (string * list string)) : forall acc s,
  NoDup kvs.*1 ->
  (forall k, k ∈ kvs.*1 -> acc !! k = None) ->
  foldl (fun rm sk => foldl (step sk.1) rm (isorted sk.2)) acc kvs !! s =
  match (list_to_map kvs : gmap string (list string)) !! s with
  | Some keys => keep f keys
  | None => acc !! s
  end.
Proof.
  induction kvs as [|[st keys] kvs IH]; intros acc s Hnd Hfresh; [done|].
  cbn [foldl fmap list_fmap fst snd] in *. apply NoDup_cons in Hnd as [Hst Hnd].
  rewrite IH; [|done|].
  - cbn [list_to_map foldr]. fold (list_to_map kvs : gmap string (list string)).
    destruct (decide (st = s)) as [->|Hne].
    + rewrite lookup_insert_eq.
      rewrite (proj1 (not_elem_of_list_to_map kvs s)) by done.
      rewrite foldl_step_lookup, decide_True by done.
      rewrite (Hfresh s) by left. unfold keep. by destruct (filter _ _).
    + rewrite lookup_insert_ne by done.
      destruct (_ !! s); [done|]. by rewrite foldl_step_lookup, decide_False.
  - intros k Hk. rewrite foldl_step_lookup.
    assert (st <> k) by (by intros ->). rewrite decide_False by done.
    apply Hfresh. by right.
Qed.

(** The result of the loops, bucket by bucket. *)
Lemma select_spec (matches : gmap string (list string)) :
  select (PStr p) matches = Ok (omap (keep f) matches).
Proof.
  unfold select. rewrite foldR_buckets. f_equal. apply map_eq. intros s.
  rewrite foldl_buckets_lookup.
  - rewrite list_to_map_to_list, lookup_omap. by destruct (matches !! s).
  - apply NoDup_fst_map_to_list.
  - intros k _. apply lookup_empty.
Qed.

Lemma select_member (matches : gmap string (list string)) s k :
  k ∈ bucket (omap (keep f) matches) s <-> k ∈ bucket matches s /\ f k = true.
Proof.
  unfold bucket. rewrite lookup_omap.
  destruct (matches !! s) as [keys|]; cbn.
  - unfold keep. destruct (filter _ (isorted keys)) as [|x l] eqn:E; cbn.
    + split; [by intros ?%not_elem_of_nil|]. intros [Hk Hf].
      assert (k ∈ filter (fun k => f k = true) (isorted keys)) as Hin
        by (apply list_elem_of_filter; by rewrite isorted_elem).
      rewrite E in Hin. by apply not_elem_of_nil in Hin.
    + rewrite <- E, list_elem_of_filter, isorted_elem. tauto.
  - split; [by intros ?%not_elem_of_nil | by intros [?%not_elem_of_nil _]].
Qed.

End Select.

(** ** [name_match] *)

Lemma name_match_select (match_ : string) (full : bool) w matches w' :
  (if full then all_keys else list_keys) w = (Ok matches, w') ->
  name_match match_ full w = (select (rework match_) matches, w').
Proof. intros H. unfold name_match. by rewrite (bind_ok _ _ _ _ _ H). Qed.

(** Literal prefixes. For every pattern that is a prefix of literal
    characters (none of [.^$*+?{[()|\], no comma) followed by one [*], name
    matching selects from each bucket of the candidates exactly the names
    that are the prefix followed by zero or more word characters, or such a
    name followed by one final newline (which [$] lets pass). The prefix
    [web] on [web01], [web-01], [web1x] is [name_match_web_star] below. *)
Theorem name_match_glob (prefix : string) (full : bool) w matches w' :
  Str.all literal prefix = true ->
  Str.all no_comma prefix = true ->
  (if full then all_keys else list_keys) w = (Ok matches, w') ->
  exists d,
    name_match (prefix +:+ "*") full w = (Ok d, w')
    /\ forall s k,
         k ∈ bucket d s <->
         k ∈ bucket matches s
         /\ exists tail, Str.all Sre.is_word tail = true
              /\ (k = prefix +:+ tail \/ k = prefix +:+ tail +:+ final_newline).
Proof.
  intros Hl Hc Hm. rewrite (name_match_select _ _ _ _ _ Hm), (rework_glob _ Hl Hc).
  rewrite (select_spec _ _ (compile_glob prefix Hl)).
  eexists; split; [done|]. intros s k.
  by rewrite select_member, run_glob.
Qed.

Lemma name_match_glob_witness :
  exists d,
    name_match ("web" +:+ "*") false web_store = (Ok d, web_store)
    /\ forall s k,
         k ∈ bucket d s <->
         k ∈ bucket (listing (table web_store)) s
         /\ exists tail, Str.all Sre.is_word tail = true
              /\ (k = "web" +:+ tail \/ k = "web" +:+ tail +:+ final_newline).
Proof.
  apply (name_match_glob "web" false web_store (listing (table web_store)) web_store);
    reflexivity.
Defined.

Example name_match_web_star :
  name_match "web*" false web_store = (Ok {[ "pre" := ["web01"; "web1x"] ]}, web_store).
Proof. vm_compute. reflexivity. Qed.

(** C4. The claim does not hold of the code. The docstrings call the
    pattern a glob, but the text before the [*] is handed to the matcher
    unescaped: the prefix of [web.*] is not taken literally, and [web-01],
    which does not start with [web.], is selected. And [$] lets a final
    newline pass: [web*] selects [web01] followed by a newline, whose tail
    is not made of word characters. *)
Lemma name_match_glob_not_literal :
  (name_match "web.*" false (store [minion "web-01" "pre"])).1
    = Ok {[ "pre" := ["web-01"] ]}
  /\ ~ glob_match "web." "web-01"
  /\ (name_match "web*" false (store [minion ("web01" +:+ final_newline) "pre"])).1
    = Ok {[ "pre" := ["web01" +:+ final_newline] ]}
  /\ ~ glob_match "web" ("web01" +:+ final_newline).
Proof.
  split; [vm_compute; reflexivity|]. split.
  { intros (tail & _ & H). vm_compute in H. discriminate H. }
  split; [vm_compute; reflexivity|].
  intros (tail & Hw & H). vm_compute in H. injection H as <-.
  vm_compute in Hw. discriminate Hw.
Qed.

(** Literal names. For every pattern made of literal characters (none of
    [.^$*+?{[()|\]) and without a comma, name matching selects from each
    bucket of the candidates exactly the names equal to the pattern, and
    the pattern followed by one final newline. *)
Theorem name_match_exact (p : string) (full : bool) w matches w' :
  Str.all literal p = true ->
  Str.all no_comma p = true ->
  (if full then all_keys else list_keys) w = (Ok matches, w') ->
  exists d,
    name_match p full w = (Ok d, w')
    /\ forall s k,
         k ∈ bucket d s <->
         k ∈ bucket matches s /\ (k = p \/ k = p +:+ final_newline).
Proof.
  intros Hl Hc Hm. rewrite (name_match_select _ _ _ _ _ Hm), (rework_exact _ Hl Hc).
  rewrite (select_spec _ _ (compile_exact p Hl)).
  eexists; split; [done|]. intros s k.
  by rewrite select_member, run_exact.
Qed.

Lemma name_match_exact_witness :
  exists d,
    name_match "web01" false (store [minion "web01" "pre"; minion "web010" "pre"])
      = (Ok d, store [minion "web01" "pre"; minion "web010" "pre"])
    /\ forall s k,
         k ∈ bucket d s <->
         k ∈ bucket (listing [minion "web01" "pre"; minion "web010" "pre"]) s
         /\ (k = "web01" \/ k = "web01" +:+ final_newline).
Proof.
  apply (name_match_exact "web01" false
           (store [minion "web01" "pre"; minion "web010" "pre"])
           (listing [minion "web01" "pre"; minion "web010" "pre"])
           (store [minion "web01" "pre"; minion "web010" "pre"]));
    reflexivity.
Defined.

Example name_match_web01 :
  (name_match "web01" false (store [minion "web01" "pre"; minion "web010" "pre"])).1
  = Ok {[ "pre" := ["web01"] ]}.
Proof. vm_compute. reflexivity. Qed.

(** C5. The claim does not hold of the code. The pattern, which the
    docstrings call a glob and which is expected to be a name such as
    [server01.mydomain.com], is matched as a regular expression: [web.1],
    which does not end in [*], selects [webx1], a name that differs from
    it. And [$] lets a final newline pass: [web01] selects [web01] followed
    by a newline. *)
Lemma name_match_exact_not_equality :
  (name_match "web.1" false (store [minion "webx1" "pre"])).1
    = Ok {[ "pre" := ["webx1"] ]}
  /\ "webx1" <> "web.1"
  /\ Str.endswith "web.1" Str.star = false
  /\ (name_match "web01" false (store [minion ("web01" +:+ final_newline) "pre"])).1
    = Ok {[ "pre" := ["web01" +:+ final_newline] ]}
  /\ "web01" +:+ final_newline <> "web01".
Proof.
  split; [vm_compute; reflexivity|]. split; [done|]. split; [done|].
  split; [vm_compute; reflexivity|]. vm_compute. discriminate.
Qed.

(** *** Comma-separated patterns *)

Lemma isorted_nil_inv l : isorted l = [] -> l = [].
Proof.
  intros H. apply Permutation_nil. by rewrite <- H, isorted_perm.
Qed.

Lemma select_list_raises items (matches : gmap string (list string)) s keys :
  items <> [] -> matches !! s = Some keys -> keys <> [] ->
  select (PList items) matches = Raise TypeError.
Proof.
  intros Hi Hs Hk. unfold select.
  assert (exists kv, kv ∈ map_to_list matches /\ kv.2 <> []) as Hex.
  { exists (s, keys). split; [by apply elem_of_map_to_list | done]. }
  clear Hs. generalize (∅ : gmap string (list string)) as acc.
  induction (map_to_list matches) as [|kv kvs IH]; intros acc.
  - destruct Hex as (kv & Hin & _). by apply not_elem_of_nil in Hin.
  - cbn [foldR]. destruct (isorted kv.2) as [|x l] eqn:E.
    + cbn [foldR]. apply IH. destruct Hex as (kv' & Hin & Hne).
      apply elem_of_cons in Hin as [->|Hin]; [|by exists kv'].
      by apply isorted_nil_inv in E.
    + cbn [foldR try_key]. by destruct items.
Qed.

Lemma split_not_nil m c : Str.split m c <> [].
Proof.
  destruct m as [|a m]; cbn; [done|].
  destruct (Ascii.eqb a c); [done|]. by destruct (Str.split m c).
Qed.

(** Every pattern with a comma (and no final [*]) makes [name_match] raise
    as soon as the listing has one name. *)
Lemma name_match_comma_raises match_ w matches w' s keys :
  Str.endswith match_ Str.star = false ->
  Str.contains Str.comma match_ = true ->
  list_keys w = (Ok matches, w') ->
  matches !! s = Some keys -> keys <> [] ->
  name_match match_ false w = (Raise TypeError, w').
Proof.
  intros He Hc Hm Hs Hk. rewrite (name_match_select match_ false _ _ _ Hm).
  unfold rework. rewrite He, Hc.
  by rewrite (select_list_raises _ _ s keys (split_not_nil _ _) Hs Hk).
Qed.

(** C6. The claim does not hold of the code: on a comma-separated pattern
    the loop adds the list of sub-patterns to a string, and [name_match]
    raises [TypeError] instead of returning the union of the matches, here
    for [web01,db01] on a store that holds both names. *)
Theorem name_match_comma_type_error :
  name_match "web01,db01" false (store [minion "web01" "pre"; minion "db01" "acc"])
  = (Raise TypeError, store [minion "web01" "pre"; minion "db01" "acc"])
  /\ (name_match "web01" false (store [minion "web01" "pre"; minion "db01" "acc"])).1
     = Ok {[ "pre" := ["web01"] ]}
  /\ (name_match "db01" false (store [minion "web01" "pre"; minion "db01" "acc"])).1
     = Ok {[ "acc" := ["db01"] ]}.
Proof. repeat split; vm_compute; reflexivity. Qed.

(** ** Loops of served statements *)

Section Served.

Lemma foldM_app {A B} (f : B -> A -> M B) l1 l2 : forall b w,
  foldM f b (l1 ++ l2) w = bind (foldM f b l1) (fun b' => foldM f b' l2) w.
Proof.
  induction l1 as [|x l1 IH]; intros b w; [done|].
  cbn [app foldM]. unfold bind in *. destruct (f b x w) as [[b'| |] w1]; [|done..].
  apply IH.
Qed.

Lemma run_query_update s c w :
  faults w = [] -> stmt_safe (Update s c) = true ->
  run_query (Update s c) w
  = (Ok (true, Tuples []), set_table (apply_update s c (table w)) [] w).
Proof. intros Hf Hs. unfold run_query. by rewrite Hs, Hf. Qed.

(** A loop that runs one [UPDATE] per name against a served backend. *)
Lemma foldM_updates s (c : string -> cond) names : forall w,
  faults w = [] ->
  Forall (fun n => stmt_safe (Update s (c n)) = true) names ->
  foldM (fun (_ : unit) n => _ <~ run_query (Update s (c n)) ;; pure tt) tt names w
  = (Ok tt, set_table (foldl (fun t n => apply_update s (c n) t) (table w) names) [] w).
Proof.
  induction names as [|n names IH]; intros w Hf Hs.
  - cbn. unfold pure. by rewrite <- Hf, set_table_same.
  - apply Forall_cons in Hs as [Hn Hs]. cbn [foldM foldl].
    unfold bind at 1 2. rewrite (run_query_update _ _ _ Hf Hn). cbn [pure].
    by rewrite IH.
Qed.

(** A loop of statements that can each be written out never fails. *)
Lemma foldM_queries_ok (mk : string -> stmt) names : forall w,
  Forall (fun n => stmt_safe (mk n) = true) names ->
  exists w', foldM (fun (_ : unit) n => _ <~ run_query (mk n) ;; pure tt) tt names w
             = (Ok tt, w')
             /\ local w' = local w.
Proof.
  induction names as [|n names IH]; intros w Hs.
  - by exists w.
  - apply Forall_cons in Hs as [Hn Hs]. cbn [foldM].
    assert (exists rd w1, run_query (mk n) w = (Ok rd, w1) /\ local w1 = local w)
      as (rd & w1 & Hq & Hl).
    { unfold run_query. rewrite Hn.
      destruct (faults w) as [|[code|] fs]; [| by eauto |];
        (destruct (exec (mk n) (table w)) as [code|[data t']]; by eauto). }
    unfold bind at 1 2. rewrite Hq. cbn [pure].
    destruct (IH w1 Hs) as (w' & -> & Hl'). exists w'. split; [done | congruence].
Qed.

Lemma for_each_minion_flat mk (d : gmap string (list string)) w :
  for_each_minion mk d w
  = foldM (fun (_ : unit) n => _ <~ run_query (mk n) ;; pure tt) tt (names_of d) w.
Proof.
  unfold for_each_minion, names_of.
  generalize (fun (_ : unit) n => _ <~ run_query (mk n) ;; pure tt). intros g. revert w.
  induction (map_to_list d) as [|kv kvs IH]; intros w; [done|].
  cbn [foldM]. rewrite bind_cons, foldM_app. unfold bind.
  destruct (foldM g tt kv.2 w) as [[[]| |] w1]; [|done..]. apply IH.
Qed.

End Served.

(** ** The table after a loop of updates *)

Section Tables.

Lemma holds_id_state n s r :
  holds (And (IdIs n) (StateIs s)) r = bool_decide (minion_id r = n /\ state r = s).
Proof.
  cbn. destruct (String.eqb_spec (minion_id r) n), (String.eqb_spec (state r) s);
    cbn; symmetry; (by apply bool_decide_eq_true) || (apply bool_decide_eq_false; tauto).
Qed.

Lemma holds_id n r : holds (IdIs n) r = bool_decide (minion_id r = n).
Proof.
  cbn. destruct (String.eqb_spec (minion_id r) n); symmetry;
    [by apply bool_decide_eq_true | by apply bool_decide_eq_false].
Qed.

(** The strict transition [from] to [to_] of the named identities. *)
Lemma strict_updates from to_ names : forall t,
  from <> to_ ->
  foldl (fun t n => apply_update to_ (And (IdIs n) (StateIs from)) t) t names
  = map (promote from to_ names) t.
Proof.
  intros t Hne. revert t. induction names as [|n names IH]; intros t; cbn [foldl].
  - unfold promote. rewrite <- (map_id t) at 1. apply map_ext. intros r.
    rewrite bool_decide_eq_false_2; [done|]. intros [_ H]. by apply not_elem_of_nil in H.
  - rewrite IH. unfold apply_update. rewrite map_map. apply map_ext. intros r.
    rewrite holds_id_state. unfold promote.
    destruct (bool_decide_reflect (minion_id r = n /\ state r = from)) as [[Hn Hs]|H1].
    + rewrite bool_decide_eq_false_2 by (cbn; intros [? _]; congruence).
      rewrite bool_decide_eq_true_2; [done|]. split; [done | subst n; left].
    + apply (f_equal (fun b : bool => if b then set_state to_ r else r)).
      apply bool_decide_ext. rewrite elem_of_cons. split; [tauto|].
      intros [? [?|?]]; [exfalso; by apply H1 | done].
Qed.

(** The unconditional transition to [to_] of the named identities. *)
Lemma id_updates to_ names : forall t,
  foldl (fun t n => apply_update to_ (IdIs n) t) t names
  = map (promote_any to_ names) t.
Proof.
  induction names as [|n names IH]; intros t; cbn [foldl].
  - unfold promote_any. rewrite <- (map_id t) at 1. apply map_ext. intros r.
    rewrite bool_decide_eq_false_2; [done|]. apply not_elem_of_nil.
  - rewrite IH. unfold apply_update. rewrite map_map. apply map_ext. intros r.
    rewrite holds_id. unfold promote_any.
    destruct (bool_decide_reflect (minion_id r = n)) as [Hn|H1].
    + rewrite (bool_decide_eq_true_2 (minion_id r ∈ n :: names)) by (subst n; left).
      cbn [set_state minion_id]. by case_bool_decide.
    + apply (f_equal (fun b : bool => if b then set_state to_ r else r)).
      apply bool_decide_ext. rewrite elem_of_cons. split; [tauto|].
      by intros [?|?].
Qed.

Lemma names_in_elem n s t : n ∈ names_in s t <-> exists r, r ∈ t /\ state r = s /\ minion_id r = n.
Proof.
  unfold names_in. rewrite list_elem_of_fmap. split.
  - intros (r & -> & Hr). apply list_elem_of_filter in Hr as [? ?]. by exists r.
  - intros (r & Hr & Hs & <-). exists r. split; [done|]. by apply list_elem_of_filter.
Qed.

(** Once the pending identities went to [to_], none is pending. *)
Lemma names_in_promoted to_ t :
  to_ <> PEND ->
  names_in PEND (map (promote_any to_ (names_in PEND t)) t) = [].
Proof.
  intros Hne. apply names_in_nil_iff. unfold has_state. rewrite Exists_exists.
  intros (r' & Hin & Hs). apply list_elem_of_fmap in Hin as (r & -> & Hr).
  unfold promote_any in Hs. case_bool_decide as H; [done|].
  apply H, names_in_elem. by exists r.
Qed.

End Tables.

(** ** The naming translation *)

Section Translate.

Context {V : Type}.
Implicit Types (d : gmap string V) (k a b : string).

Lemma trans_map_list :
  map_to_list trans_map
  = [("acc", "minions"); ("rej", "minions_rejected");
     ("den", "minions_denied"); ("pre", "minions_pre")].
Proof. vm_compute. reflexivity. Qed.

Lemma trans_map_pairs a b :
  trans_map !! a = Some b <->
  (a, b) ∈ [("acc", "minions"); ("rej", "minions_rejected");
            ("den", "minions_denied"); ("pre", "minions_pre")].
Proof. by rewrite <- elem_of_map_to_list, trans_map_list. Qed.

Lemma rename_lookup d a b k :
  a <> b ->
  rename d (a, b) !! k =
  if decide (k = b) then match d !! a with Some v => Some v | None => d !! b end
  else if decide (k = a) then None
  else d !! k.
Proof.
  intros Hab. unfold rename. cbn [fst snd].
  destruct (d !! a) as [v|] eqn:E; repeat case_decide; subst.
  - by rewrite lookup_insert_eq.
  - rewrite lookup_insert_ne by done. by rewrite lookup_delete_eq.
  - rewrite lookup_insert_ne by done. by rewrite lookup_delete_ne.
  - done.
  - done.
  - done.
Qed.

Lemma translate_unfold d :
  translate d
  = rename (rename (rename (rename d ("acc", "minions")) ("rej", "minions_rejected"))
                   ("den", "minions_denied")) ("pre", "minions_pre").
Proof. unfold translate. by rewrite trans_map_list. Qed.

Ltac translate_cases :=
  rewrite translate_unfold, !rename_lookup by done;
  repeat (case_decide; simplify_eq; try done).

(** The value under an internal code is found, unchanged, under its
    external name. *)
Lemma translate_moves d a b v :
  trans_map !! a = Some b -> d !! a = Some v -> translate d !! b = Some v.
Proof.
  intros Hab Hv. apply trans_map_pairs in Hab.
  rewrite !elem_of_cons in Hab.
  destruct Hab as [?|[?|[?|[?|Hab]]]]; [simplify_eq..|by apply not_elem_of_nil in Hab];
    translate_cases; by rewrite Hv.
Qed.

(** No internal code is left as a key. *)
Lemma translate_internal d k : k ∈ internal -> translate d !! k = None.
Proof.
  unfold internal, ACC, PEND, REJ, DEN. rewrite !elem_of_cons.
  intros [?|[?|[?|[?|H]]]]; [simplify_eq..|by apply not_elem_of_nil in H];
    translate_cases.
Qed.

(** An external name keeps its entry when there is nothing to move. *)
Lemma translate_stays d a b :
  trans_map !! a = Some b -> d !! a = None -> translate d !! b = d !! b.
Proof.
  intros Hab Hv. apply trans_map_pairs in Hab.
  rewrite !elem_of_cons in Hab.
  destruct Hab as [?|[?|[?|[?|Hab]]]]; [simplify_eq..|by apply not_elem_of_nil in Hab];
    translate_cases; by rewrite Hv.
Qed.

(** Every other entry is left as it is. *)
Lemma translate_other d k :
  k ∉ internal -> (forall a, trans_map !! a <> Some k) -> translate d !! k = d !! k.
Proof.
  intros Hk Hext.
  unfold internal, ACC, PEND, REJ, DEN in Hk. rewrite !elem_of_cons in Hk.
  assert (k <> "acc" /\ k <> "rej" /\ k <> "den" /\ k <> "pre") as (? & ? & ? & ?)
    by (repeat split; intros ->; apply Hk; tauto).
  assert (k <> "minions") by (intros ->; by apply (Hext "acc")).
  assert (k <> "minions_rejected") by (intros ->; by apply (Hext "rej")).
  assert (k <> "minions_denied") by (intros ->; by apply (Hext "den")).
  assert (k <> "minions_pre") by (intros ->; by apply (Hext "pre")).
  rewrite translate_unfold, !rename_lookup by done.
  by rewrite !decide_False by done.
Qed.

Lemma translate_empty : translate (∅ : gmap string V) = ∅.
Proof. by rewrite translate_unfold. Qed.

Lemma compat_ok (func : M (gmap string V)) w d w' :
  func w = (Ok d, w') -> compat func w = (Ok (translate d), w').
Proof. intros H. unfold compat. rewrite (bind_ok _ _ _ _ _ H). reflexivity. Qed.

Lemma compat_inv (func : M (gmap string V)) w d :
  (compat func w).1 = Ok d -> exists d0, (func w).1 = Ok d0 /\ d = translate d0.
Proof.
  unfold compat, bind, pure. destruct (func w) as [[d0| |] w']; cbn [fst];
    intros H; [|discriminate H..].
  exists d0. split; [reflexivity | congruence].
Qed.

Lemma compat_renamed (func : M (gmap string V)) : renamed (compat func).
Proof.
  intros w d k Hd Hk. apply compat_inv in Hd as (d0 & _ & ->).
  by apply translate_internal.
Qed.

End Translate.

Lemma list_keys_inv w d : (list_keys w).1 = Ok d -> d = listing (table w).
Proof.
  unfold list_keys, bind, run_query. cbn [stmt_safe exec].
  destruct (faults w) as [|[code|] fs]; cbn [fst snd entries tail];
    unfold lift, raise; rewrite ?foldR_place; cbn [fst];
    unfold listing, empty_listing; congruence.
Qed.

(** C2, the claim as stated fails: the full listing, [list_keys], is not
    decorated; its keys are the internal codes, and the result differs from
    its translation. *)
Lemma list_keys_not_translated :
  (list_keys (store [minion "m1" "pre"; minion "m2" "acc"])).1
    = Ok {[ "acc" := ["m2"]; "pre" := ["m1"]; "rej" := []; "den" := [] ]}
  /\ translate ({[ "acc" := ["m2"]; "pre" := ["m1"]; "rej" := []; "den" := [] ]}
                 : gmap string (list string))
     = {[ "minions" := ["m2"]; "minions_pre" := ["m1"];
          "minions_rejected" := []; "minions_denied" := [] ]}
  /\ ({[ "acc" := ["m2"]; "pre" := ["m1"]; "rej" := []; "den" := [] ]}
        : gmap string (list string)) !! "minions" = None.
Proof. repeat split; vm_compute; reflexivity. Qed.

(** C2, as amended. The renaming is applied to what every decorated
    operation returns ([all_keys], [list_status], [accept], [accept_all],
    [reject], [reject_all], [delete_key], [delete_all], [key_str],
    [key_str_all]): none of the internal codes is a key of such a result.
    [list_keys], the listing the other operations compute with, is not
    decorated and keeps the four internal codes. The renaming moves the value
    under an internal code to the external name unchanged, and leaves every
    other top-level entry, and so all nested data, as it is. *)
Theorem compat_translation :
  (renamed all_keys
   /\ (forall m, renamed (list_status m))
   /\ (forall m md flag, renamed (accept m md flag))
   /\ renamed accept_all
   /\ (forall m md flag, renamed (reject m md flag))
   /\ renamed reject_all
   /\ (forall m md flag, renamed (delete_key m md flag))
   /\ renamed delete_all
   /\ (forall m, renamed (key_str m))
   /\ renamed key_str_all)
  /\ (forall w d k, (list_keys w).1 = Ok d -> k ∈ internal -> is_Some (d !! k))
  /\ (forall V (d : gmap string V) a b v,
        trans_map !! a = Some b -> d !! a = Some v -> translate d !! b = Some v)
  /\ (forall V (d : gmap string V) a b,
        trans_map !! a = Some b -> d !! a = None -> translate d !! b = d !! b)
  /\ (forall V (d : gmap string V) k,
        k ∉ internal -> (forall a, trans_map !! a <> Some k) -> translate d !! k = d !! k).
Proof.
  split; [|split; [|split; [|split]]].
  - repeat split; intros; apply compat_renamed.
  - intros w d k Hd Hk. apply list_keys_inv in Hd as ->.
    rewrite listing_lookup. by rewrite decide_True.
  - intros V. apply translate_moves.
  - intros V. apply translate_stays.
  - intros V. apply translate_other.
Qed.

(** ** [accept_all] *)

Section AcceptAll.

Lemma listing_pending t : getitem (listing t) PEND = Ok (names_in PEND t).
Proof.
  unfold getitem. rewrite listing_lookup. rewrite decide_True; [done|].
  unfold internal. apply elem_of_cons. right. left.
Qed.

Lemma safe_update_by_id names :
  Forall (fun n => sql_safe n = true) names ->
  Forall (fun n => stmt_safe (Update ACC (IdIs n)) = true) names.
Proof.
  intros H. eapply Forall_impl; [exact H|].
  intros n Hn. cbn [stmt_safe cond_safe]. by rewrite Hn.
Qed.

(** What one call does against a served backend. *)
Lemma accept_all_served w :
  faults w = [] ->
  Forall (fun n => sql_safe n = true) (names_in PEND (table w)) ->
  let t1 := map (promote_any ACC (names_in PEND (table w))) (table w) in
  accept_all w = (Ok (translate (listing t1)), set_table t1 [] w).
Proof.
  intros Hf Hs t1. unfold accept_all. apply compat_ok.
  rewrite (bind_ok _ _ _ _ _ (list_keys_healthy w Hf)).
  unfold lift at 1. unfold bind at 1. rewrite listing_pending.
  unfold bind at 1. rewrite (foldM_updates ACC IdIs _ w Hf (safe_update_by_id _ Hs)).
  rewrite id_updates. fold t1.
  by rewrite (list_keys_healthy (set_table t1 [] w)).
Qed.

End AcceptAll.

(** C9. Against a served backend (and pending names that can be written
    into a statement), [accept_all] sets every row that bears the name of a
    pending row to accepted and returns the translated listing of the table
    it leaves. In that table no row is pending, so that a second
    [accept_all] returns the same listing and changes nothing; the pending
    bucket of the listing is empty. *)
Theorem accept_all_idempotent w :
  faults w = [] ->
  Forall (fun n => sql_safe n = true) (names_in PEND (table w)) ->
  exists d w1,
    accept_all w = (Ok d, w1)
    /\ accept_all w1 = (Ok d, w1)
    /\ d !! "minions_pre" = Some []
    /\ d !! PEND = None
    /\ table w1 = map (promote_any ACC (names_in PEND (table w))) (table w)
    /\ names_in PEND (table w1) = []
    /\ d = translate (listing (table w1)).
Proof.
  intros Hf Hs.
  set (t1 := map (promote_any ACC (names_in PEND (table w))) (table w)).
  assert (names_in PEND t1 = []) as Hnone by (by apply names_in_promoted).
  exists (translate (listing t1)), (set_table t1 [] w).
  split; [by apply accept_all_served|]. split; [|split; [|split; [|by repeat split]]].
  - rewrite (accept_all_served (set_table t1 [] w)); cbn [table set_table faults].
    + rewrite Hnone. cbn [map].
      assert (map (promote_any ACC []) t1 = t1) as ->; [|done].
      rewrite <- (map_id t1) at 2. apply map_ext. intros r. unfold promote_any.
      rewrite bool_decide_eq_false_2; [done | apply not_elem_of_nil].
    + done.
    + by rewrite Hnone.
  - rewrite (translate_moves _ PEND "minions_pre" (names_in PEND t1)).
    + by rewrite Hnone.
    + done.
    + rewrite listing_lookup. rewrite decide_True; [done|].
      unfold internal. apply elem_of_cons. right. left.
  - apply translate_internal. unfold internal. apply elem_of_cons. right. left.
Qed.

Lemma accept_all_idempotent_witness :
  exists d w1,
    accept_all (store [minion "m1" "pre"; minion "m2" "acc"; minion "m3" "rej"])
      = (Ok d, w1)
    /\ accept_all w1 = (Ok d, w1)
    /\ d !! "minions_pre" = Some []
    /\ d !! PEND = None
    /\ table w1
       = map (promote_any ACC
                (names_in PEND
                   (table (store [minion "m1" "pre"; minion "m2" "acc"; minion "m3" "rej"]))))
             (table (store [minion "m1" "pre"; minion "m2" "acc"; minion "m3" "rej"]))
    /\ names_in PEND (table w1) = []
    /\ d = translate (listing (table w1)).
Proof.
  apply (accept_all_idempotent
           (store [minion "m1" "pre"; minion "m2" "acc"; minion "m3" "rej"])).
  - reflexivity.
  - vm_compute. repeat constructor.
Defined.

Example accept_all_twice :
  let w := store [minion "m1" "pre"; minion "m2" "acc"; minion "m3" "rej"] in
  (accept_all w).1
    = Ok {[ "minions" := ["m1"; "m2"]; "minions_pre" := [];
            "minions_rejected" := ["m3"]; "minions_denied" := [] ]}
  /\ (accept_all (accept_all w).2).1 = (accept_all w).1.
Proof. split; vm_compute; reflexivity. Qed.

(** ** Transitions by mapping *)

Section Mapping.

Implicit Types (d : gmap string (list string)).

Lemma safe_transition (flag : bool) to_ from other names :
  sql_safe to_ = true -> sql_safe from = true ->
  Forall (fun n => sql_safe n = true) names ->
  Forall (fun n => stmt_safe
                     (if flag
                      then transition_query flag [store_table; to_; n; from; other]
                      else transition_query flag [store_table; to_; n; from]) = true)
         names.
Proof.
  intros Ht Hfr H. eapply Forall_impl; [exact H|]. intros n Hn.
  destruct flag; cbn; by rewrite Ht, Hfr, Hn.
Qed.

Lemma transition_by_mapping_empty d (flag : bool) to_ from other w :
  sql_safe to_ = true -> sql_safe from = true ->
  Forall (fun n => sql_safe n = true) (names_of d) ->
  exists w',
    compat (matches <~ resolve None (Some d) ;;
            _ <~ for_each_minion
                   (fun minion =>
                      if flag
                      then transition_query flag [store_table; to_; minion; from; other]
                      else transition_query flag [store_table; to_; minion; from])
                   matches ;;
            report None matches) w
    = (Ok ∅, w').
Proof.
  intros Ht Hfr Hs.
  destruct (foldM_queries_ok _ _ w (safe_transition flag to_ from other _ Ht Hfr Hs))
    as (w' & Hw' & _).
  exists w'. rewrite <- (translate_empty (V := list string)). apply compat_ok.
  unfold resolve, report, dict_match. unfold bind at 1. unfold pure at 1.
  unfold bind at 1. by rewrite for_each_minion_flat, Hw'.
Qed.


End Mapping.


Example accept_mapping_table :
  table (accept None (Some {[ "pre" := ["m1"]; "acc" := ["m2"] ]}) false
           (store [minion "m1" "pre"; minion "m2" "rej"; minion "m3" "pre"])).2
  = [minion "m1" "acc"; minion "m2" "rej"; minion "m3" "pre"].
Proof. vm_compute. reflexivity. Qed.

(** ** The override flag of [accept] and [reject] *)

Section Override.




End Override.

(** ** Transitions by mapping, with and without the flag *)

Section MappingFlag.

Implicit Types (d : gmap string (list string)).




End MappingFlag.



Example transition_by_mapping_tables :
  let d : gmap string (list string) := {[ "pre" := ["m1"]; "acc" := ["m2"] ]} in
  let w := store [minion "m1" "pre"; minion "m2" "acc"; minion "m3" "pre"] in
  table (accept None (Some d) false w).2
    = [minion "m1" "acc"; minion "m2" "acc"; minion "m3" "pre"]
  /\ table (reject None (Some d) false w).2
    = [minion "m1" "pre"; minion "m2" "rej"; minion "m3" "pre"]
  /\ table (accept None (Some d) true w).2
    = [minion "m1" "acc"; minion "m2" "acc"; minion "m3" "acc"]
  /\ table (reject None (Some d) true w).2
    = [minion "m1" "rej"; minion "m2" "acc"; minion "m3" "rej"].
Proof. repeat split; vm_compute; reflexivity. Qed.

(** C1. The claim does not hold of the code when the flag is set: the text
    appended to the statement, [ OR state='{3}'], makes the statement apply
    to every pending row. On a store with [m1] and [m2] pending, the target
    set of the pattern [m1] is [m1] alone, and [accept] with
    [include_rejected] (by pattern or by mapping) and [reject] with
    [include_accepted] change the state of [m2] as well; without the flag
    [m2] keeps its state. *)
Theorem override_flag_breaks_frame :
  (name_match "m1" false two_pending).1 = Ok {[ "pre" := ["m1"] ]}
  /\ table (accept (Some "m1") None true two_pending).2
     = [minion "m1" "acc"; minion "m2" "acc"]
  /\ table (accept None (Some {[ "pre" := ["m1"] ]}) true two_pending).2
     = [minion "m1" "acc"; minion "m2" "acc"]
  /\ table (reject (Some "m1") None true two_pending).2
     = [minion "m1" "rej"; minion "m2" "rej"]
  /\ table (accept (Some "m1") None false two_pending).2
     = [minion "m1" "acc"; minion "m2" "pre"].
Proof. repeat split; vm_compute; reflexivity. Qed.

(** C3. The claim does not hold of the code for [include_rejected=true]:
    the appended text tests the state [pre] again instead of [rej], so the
    rejected [x], which the pattern [x] matches and nothing else, is left in
    [rej] by both calls, and the second reports it as still rejected. *)
Theorem accept_override_leaves_rejected :
  (name_match "x" false one_rejected).1 = Ok {[ "rej" := ["x"] ]}
  /\ table (accept (Some "x") None false one_rejected).2 = [minion "x" "rej"]
  /\ table (accept (Some "x") None true one_rejected).2 = [minion "x" "rej"]
  /\ (accept (Some "x") None true one_rejected).1 = Ok {[ "minions_rejected" := ["x"] ]}
  /\ transition_query true [store_table; ACC; "x"; PEND; REJ]
     = Update "acc" (Or (And (IdIs "x") (StateIs "pre")) (StateIs "pre")).
Proof. repeat split; vm_compute; reflexivity. Qed.

(** ** [delete_key] on an empty target *)

Lemma delete_loop_nothing (kvs : list (string * list string)) : forall ret w,
  kvs ≫= snd = [] ->
  foldM (fun (ret : option bool) (sk : string * list string) =>
           foldM (fun (_ : option bool) key =>
                    rd <~ run_query (DeleteWhere (IdIs key)) ;; pure (Some rd.1))
                 ret sk.2)
        ret kvs w
  = (Ok ret, w).
Proof.
  induction kvs as [|kv kvs IH]; intros ret w H; [done|].
  rewrite bind_cons in H. apply app_eq_nil in H as [H1 H2].
  cbn [foldM]. rewrite H1. cbn [foldM]. unfold bind at 1. unfold pure at 1.
  by apply IH.
Qed.

(** Whatever resolves to no identity makes [delete_key] raise. *)
Lemma delete_key_nothing_raises match_ match_dict flag w matches w' :
  resolve match_ match_dict w = (Ok matches, w') ->
  names_of matches = [] ->
  delete_key match_ match_dict flag w = (Raise (AttributeError None), w').
Proof.
  intros Hr Hn. unfold delete_key, compat.
  unfold bind at 1. unfold bind at 1. rewrite Hr.
  unfold bind at 1. by rewrite (delete_loop_nothing _ None w' Hn).
Qed.

(** C8. The claim does not hold of the code: when the pattern or the
    mapping resolves to no identity, the loop runs no statement, [ret] is
    still [None], and [delete_key] raises [AttributeError]; the store is
    unchanged. [accept], the sibling, returns an empty result there. *)
Theorem delete_key_no_match_raises :
  (name_match "zz" false two_pending).1 = Ok ∅
  /\ delete_key (Some "zz") None false two_pending
     = (Raise (AttributeError None), two_pending)
  /\ delete_key None (Some ∅) false two_pending
     = (Raise (AttributeError None), two_pending)
  /\ delete_key None None false two_pending
     = (Raise (AttributeError None), two_pending)
  /\ accept (Some "zz") None false two_pending = (Ok ∅, two_pending).
Proof. repeat split; vm_compute; reflexivity. Qed.

(** ** Instances *)

Lemma list_keys_buckets_witness :
  exists minions,
    list_keys odd_state_store = (Ok minions, odd_state_store)
    /\ (forall s, s ∈ internal -> minions !! s = Some (names_in s (table odd_state_store)))
    /\ (forall s, s ∉ internal -> has_state s (table odd_state_store) ->
          minions !! s = Some (names_in s (table odd_state_store))
          /\ names_in s (table odd_state_store) <> [])
    /\ (forall s, s ∉ internal -> ~ has_state s (table odd_state_store) ->
          minions !! s = None).
Proof.
  apply (list_keys_buckets odd_state_store
           (Tuples [["m1"; "pre"]; ["m2"; "acc"]; ["m3"; "odd"]]) odd_state_store).
  reflexivity.
Defined.

Example list_keys_odd_state :
  (list_keys odd_state_store).1
  = Ok {[ "acc" := ["m2"]; "pre" := ["m1"]; "rej" := []; "den" := []; "odd" := ["m3"] ]}.
Proof. vm_compute. reflexivity. Qed.

(** ** What a run may do to the table *)

Section Steps.

Context (R : list row -> list row -> Prop) `{!Reflexive R} `{!Transitive R}.

Lemma steps_pure {A} (a : A) : steps R (pure a).
Proof. intros w. reflexivity. Qed.

Lemma steps_raise {A} e : steps R (raise (A := A) e).
Proof. intros w. reflexivity. Qed.

Lemma steps_lift {A} (r : result A) : steps R (lift r).
Proof. intros w. reflexivity. Qed.

Lemma steps_bind {A B} (m : M A) (f : A -> M B) :
  steps R m -> (forall a, steps R (f a)) -> steps R (bind m f).
Proof.
  intros Hm Hf w. unfold bind. specialize (Hm w).
  destruct (m w) as [[a| |] w1]; cbn [fst snd] in *; [|done..].
  etrans; [exact Hm | apply Hf].
Qed.

Lemma steps_foldM {A B} (f : B -> A -> M B) l :
  (forall b x, x ∈ l -> steps R (f b x)) -> forall b, steps R (foldM f b l).
Proof.
  induction l as [|x l IH]; intros Hf b; cbn [foldM].
  - apply steps_pure.
  - apply steps_bind; [apply Hf; left|]. intros b'. apply IH.
    intros b2 y Hy. apply Hf. by right.
Qed.

(** A statement does to the table what the server does when it serves the
    statement, or nothing. *)
Lemma steps_run_query q :
  (forall t data t', exec q t = inr (data, t') -> R t t') -> steps R (run_query q).
Proof.
  intros Hq w. unfold run_query. destruct (stmt_safe q); [|reflexivity].
  destruct (faults w) as [|[code|] fs]; cbn [fst snd table set_table]; try reflexivity;
    (destruct (exec q (table w)) as [code|[data t']] eqn:E;
     cbn [fst snd table set_table]; [reflexivity | by eapply Hq]).
Qed.

End Steps.

Section Frame.

Implicit Types (names : list string) (t : list row).

#[local] Instance kept_refl names : Reflexive (kept names).
Proof. intros t. induction t as [|r t IH]; constructor; [by split | done]. Qed.

#[local] Instance kept_trans names : Transitive (kept names).
Proof.
  intros t1 t2 t3 H12. revert t3. induction H12 as [|r1 r2 t1 t2 [Hid Hr] _ IH];
    intros t3 H23; [done|].
  inversion H23 as [|? r3 ? t3' [Hid' Hr'] H23']; subst. constructor; [|by apply IH].
  split; [congruence|]. intros Hout.
  rewrite Hr'; [by apply Hr | by rewrite Hid].
Qed.

Lemma kept_strict_update names to_ n s t :
  n ∈ names -> kept names t (apply_update to_ (And (IdIs n) (StateIs s)) t).
Proof.
  intros Hn. induction t as [|r t IH]; [constructor|].
  cbn [apply_update map]. constructor; [|exact IH].
  rewrite holds_id_state. case_bool_decide as H; [|by split].
  split; [done|]. intros Hout. destruct H as [H _]. rewrite H in Hout. by destruct Hout.
Qed.

Lemma steps_eq_kept {A} (m : M A) names : steps eq m -> steps (kept names) m.
Proof. intros H w. by rewrite <- (H w). Qed.

Lemma steps_list_keys : steps eq list_keys.
Proof.
  unfold list_keys. apply (steps_bind eq).
  - apply (steps_run_query eq). cbn. congruence.
  - intros rd. destruct rd.1; [apply (steps_lift eq) | apply (steps_raise eq)].
Qed.

Lemma steps_name_match match_ : steps eq (name_match match_ false).
Proof.
  unfold name_match. apply (steps_bind eq); [apply steps_list_keys|].
  intros matches. apply (steps_lift eq).
Qed.

Lemma steps_resolve match_ match_dict : steps eq (resolve match_ match_dict).
Proof.
  unfold resolve. destruct match_ as [m|]; [apply steps_name_match|].
  destruct match_dict; apply (steps_pure eq).
Qed.

Lemma steps_report match_ matches : steps eq (report match_ matches).
Proof.
  unfold report, dict_match.
  destruct match_ as [m|]; [apply steps_name_match | apply (steps_pure eq)].
Qed.

Lemma elem_of_names_of (d : gmap string (list string)) s keys n :
  (s, keys) ∈ map_to_list d -> n ∈ keys -> n ∈ names_of d.
Proof.
  intros Hs Hn. unfold names_of. apply list_elem_of_bind. by exists (s, keys).
Qed.

(** The loop of strict statements changes none but the listed identities. *)
Lemma steps_strict_loop to_ from (matches : gmap string (list string)) :
  steps (kept (names_of matches))
        (for_each_minion
           (fun minion => transition_query false [store_table; to_; minion; from]) matches).
Proof.
  unfold for_each_minion. apply (steps_foldM (kept (names_of matches))).
  intros [] [s keys] Hs. apply (steps_foldM (kept (names_of matches))).
  intros [] n Hn. apply (steps_bind (kept (names_of matches)));
    [|intros; apply (steps_pure (kept (names_of matches)))].
  apply (steps_run_query (kept (names_of matches))). cbn. intros t data t' [= _ <-].
  apply kept_strict_update. by eapply elem_of_names_of.
Qed.

(** Without the flag, [accept] and [reject] leave every identity outside
    the resolved target as it is, whatever the outcome of the run (the
    names of the target being writable into a statement). *)
Lemma strict_transition_frame match_ match_dict w matches w0 :
  resolve match_ match_dict w = (Ok matches, w0) ->
  Forall (fun n => sql_safe n = true) (names_of matches) ->
  kept (names_of matches) (table w) (table (accept match_ match_dict false w).2)
  /\ kept (names_of matches) (table w) (table (reject match_ match_dict false w).2).
Proof.
  intros Hr _.
  assert (table w0 = table w) as <-.
  { pose proof (steps_resolve match_ match_dict w) as H. by rewrite Hr in H. }
  assert (forall to_ from,
    kept (names_of matches) (table w0)
      (table (compat (matches <~ resolve match_ match_dict ;;
                      _ <~ for_each_minion
                             (fun minion =>
                                transition_query false [store_table; to_; minion; from])
                             matches ;;
                      report match_ matches) w).2)) as H.
  { intros to_ from. unfold compat. unfold bind at 1 2. rewrite Hr.
    apply (steps_bind (kept (names_of matches))
             (_ <~ for_each_minion _ matches ;; report match_ matches)
             (fun d => pure (translate d)));
      [|intros; apply (steps_pure (kept (names_of matches)))].
    apply (steps_bind (kept (names_of matches))); [apply steps_strict_loop|].
    intros _. apply steps_eq_kept, steps_report. }
  split; [apply (H ACC PEND) | apply (H REJ ACC)].
Qed.

End Frame.

(** ** The demonstration at the end of the module, run on the embedding *)

Example demo_add_keys :
  (_ <~ add_key "minion_pre" "ABCDEFGH" "zmq" None ;;
   _ <~ add_key "minion_rej" "IJKLMNOP" "zmq" (Some "rej") ;;
   _ <~ add_key "minion" "QRSTUVWXY" "zmq" (Some "acc") ;;
   add_key "minion2" "123456789" "zmq" (Some "acc")) (store [])
  = (Ok (Tuples []), demo).
Proof. vm_compute. reflexivity. Qed.

Example demo_add_duplicate :
  add_key "minion2" "123456789" "zmq" (Some "acc") demo
  = (Raise (AttributeError (Some "Minion minion2 already exists in database")), demo).
Proof. vm_compute. reflexivity. Qed.

Example demo_list_status_all :
  (list_status "all" demo).1
  = Ok {[ "minions" := ["minion"; "minion2"]; "minions_pre" := ["minion_pre"];
          "minions_rejected" := ["minion_rej"]; "minions_denied" := [];
          "local" := [] ]}.
Proof. vm_compute. reflexivity. Qed.

Example demo_list_status_pre :
  (list_status "pre" demo).1 = Ok {[ "minions_pre" := ["minion_pre"] ]}.
Proof. vm_compute. reflexivity. Qed.

Example demo_key_str :
  (key_str "minion" demo).1
  = Ok {[ "minions" := {[ "minion" := "QRSTUVWXY"; "minion2" := "123456789" ]} ]}.
Proof. vm_compute. reflexivity. Qed.

Example demo_accept :
  accept (Some "minion_pre") None false demo
  = (Ok {[ "minions" := ["minion_pre"] ]},
     store (promote PEND ACC ["minion_pre"] <$> demo_rows)).
Proof. vm_compute. reflexivity. Qed.

Example demo_reject_all :
  (reject_all demo).1
  = Ok {[ "minions" := ["minion"; "minion2"]; "minions_pre" := [];
          "minions_rejected" := ["minion_pre"; "minion_rej"]; "minions_denied" := [] ]}.
Proof. vm_compute. reflexivity. Qed.

Example demo_delete_key :
  delete_key (Some "minion_pre") None false demo
  = (Ok ∅, store (filter (fun r => minion_id r <> "minion_pre") demo_rows)).
Proof. vm_compute. reflexivity. Qed.

Example demo_delete_all :
  delete_all demo
  = (Ok {[ "minions" := []; "minions_pre" := []; "minions_rejected" := [];
           "minions_denied" := [] ]}, store []).
Proof. vm_compute. reflexivity. Qed.

(** * Further properties of the module *)

(** ** [run_query] *)

Lemma run_query_served q w :
  faults w = [] -> stmt_safe q = true ->
  run_query q w =
  match exec q (table w) with
  | inl code => (Ok (false, Message (error_text code)), w)
  | inr (data, t') => (Ok (true, Tuples data), set_table t' [] w)
  end.
Proof.
  intros Hf Hs. unfold run_query. rewrite Hs, Hf. cbn [tail].
  destruct (exec q (table w)) as [code|[data t']]; [|done].
  by rewrite <- Hf, set_table_same.
Qed.

Lemma run_query_fault q w code fs :
  faults w = Some code :: fs -> stmt_safe q = true ->
  run_query q w = (Ok (false, Message (error_text code)), set_table (table w) fs w).
Proof. intros Hf Hs. unfold run_query. by rewrite Hs, Hf. Qed.

(** ** [add_key] *)

Lemma existsb_id_false n (t : list row) :
  n ∉ minion_id <$> t ->
  existsb (fun r' => String.eqb (minion_id r') n) t = false.
Proof.
  induction t as [|r t IH]; [done|]. cbn. intros H.
  apply not_elem_of_cons in H as [Hne Ht]. rewrite (IH Ht), orb_false_r.
  apply String.eqb_neq. congruence.
Qed.

Lemma existsb_id_true n (t : list row) :
  n ∈ minion_id <$> t ->
  existsb (fun r' => String.eqb (minion_id r') n) t = true.
Proof.
  induction t as [|r t IH]; cbn; [by intros ?%not_elem_of_nil|]. intros H.
  apply elem_of_cons in H as [->|H]; [by rewrite String.eqb_refl|].
  by rewrite (IH H), orb_true_r.
Qed.

Lemma names_in_app s (t1 t2 : list row) :
  names_in s (t1 ++ t2) = names_in s t1 ++ names_in s t2.
Proof. unfold names_in. by rewrite filter_app, fmap_app. Qed.

Lemma add_key_fresh n k ty key_state w :
  faults w = [] ->
  row_safe (new_row n k ty key_state) = true ->
  n ∉ minion_id <$> table w ->
  add_key n k ty key_state w
  = (Ok (Tuples []), set_table (table w ++ [new_row n k ty key_state]) [] w).
Proof.
  intros Hf Hs Hn. unfold add_key. fold (new_row n k ty key_state).
  unfold bind.
  rewrite (run_query_served (Insert (new_row n k ty key_state)) _ Hf Hs).
  cbn [exec minion_id new_row]. by rewrite (existsb_id_false _ _ Hn).
Qed.

(** X2. Adding an identity whose name is not in the table adds one row,
    in state [pre] unless a state is given, leaves the rows that were there
    as they were and in their order, and returns normally; the next listing
    shows the name in the bucket of that state, together with the names
    that were in it, and every other bucket as before. *)
Theorem add_key_then_list n k ty key_state w :
  faults w = [] ->
  row_safe (new_row n k ty key_state) = true ->
  n ∉ minion_id <$> table w ->
  exists w',
    add_key n k ty key_state w = (Ok (Tuples []), w')
    /\ table w' ≡ₚ new_row n k ty key_state :: table w
    /\ sublist (table w) (table w')
    /\ exists d,
         list_keys w' = (Ok d, w')
         /\ (exists l, d !! default "pre" key_state = Some l
                       /\ l ≡ₚ n :: names_in (default "pre" key_state) (table w))
         /\ forall s, s <> default "pre" key_state -> d !! s = listing (table w) !! s.
Proof.
  intros Hf Hs Hn.
  exists (set_table (table w ++ [new_row n k ty key_state]) [] w).
  split; [by apply add_key_fresh|]. cbn [table set_table].
  split; [symmetry; apply Permutation_cons_append|].
  split; [by apply sublist_inserts_r|].
  exists (listing (table w ++ [new_row n k ty key_state])).
  split; [by apply list_keys_healthy|]. split.
  - exists (names_in (default "pre" key_state) (table w) ++ [n]).
    split; [|symmetry; apply Permutation_cons_append].
    rewrite listing_lookup, names_in_app.
    assert (names_in (default "pre" key_state) [new_row n k ty key_state] = [n]) as ->.
    { unfold names_in. by rewrite filter_cons_True. }
    case_decide; [done|]. by destruct (names_in _ (table w)).
  - intros s Hne. rewrite !listing_lookup, names_in_app.
    assert (names_in s [new_row n k ty key_state] = []) as ->.
    { unfold names_in. by rewrite filter_cons_False by (cbn; congruence). }
    by rewrite app_nil_r.
Qed.

Lemma add_key_then_list_witness :
  exists w',
    add_key "web01" "KEY" "zmq" None demo = (Ok (Tuples []), w')
    /\ table w' ≡ₚ new_row "web01" "KEY" "zmq" None :: table demo
    /\ sublist (table demo) (table w')
    /\ exists d,
         list_keys w' = (Ok d, w')
         /\ (exists l, d !! default "pre" None = Some l
                       /\ l ≡ₚ "web01" :: names_in (default "pre" None) (table demo))
         /\ forall s, s <> default "pre" None -> d !! s = listing (table demo) !! s.
Proof.
  apply (add_key_then_list "web01" "KEY" "zmq" None demo).
  - reflexivity.
  - reflexivity.
  - vm_compute. intros H. repeat (apply elem_of_cons in H as [H|H]; [discriminate H|]).
    by apply not_elem_of_nil in H.
Defined.

(** X3. Adding a name that is already in the table raises [AttributeError]
    with the text that names the minion, and leaves the table as it is
    (the stored key is not overwritten). *)
Theorem add_key_duplicate n k ty key_state w :
  faults w = [] ->
  row_safe (new_row n k ty key_state) = true ->
  n ∈ minion_id <$> table w ->
  add_key n k ty key_state w
  = (Raise (AttributeError (Some ("Minion " +:+ n +:+ " already exists in database"))), w).
Proof.
  intros Hf Hs Hn. unfold add_key. fold (new_row n k ty key_state).
  unfold bind.
  rewrite (run_query_served (Insert (new_row n k ty key_state)) _ Hf Hs).
  cbn [exec minion_id new_row]. by rewrite (existsb_id_true _ _ Hn).
Qed.

Lemma add_key_duplicate_witness :
  add_key "minion" "OTHERKEY" "zmq" (Some "pre") demo
  = (Raise (AttributeError (Some ("Minion " +:+ "minion" +:+ " already exists in database"))),
     demo).
Proof.
  apply (add_key_duplicate "minion" "OTHERKEY" "zmq" (Some "pre") demo).
  - reflexivity.
  - reflexivity.
  - vm_compute. do 2 right. left.
Defined.

(** ** [delete_all] *)

Lemma rotate_served t w :
  rotate (set_table t [] w) = (Ok tt, served_world t 1 w).
Proof. destruct w as [t0 fs l [] d]; reflexivity. Qed.

Lemma translate_empty_listing :
  translate (listing [])
  = {[ "minions" := []; "minions_pre" := []; "minions_rejected" := [];
       "minions_denied" := [] ]}.
Proof. vm_compute. reflexivity. Qed.

(** X4. Against a served backend [delete_all] empties the table, whatever
    it held, asks for the drop file once when [rotate_aes_key] is set, and
    returns the four external buckets, all empty. *)
Theorem delete_all_served w :
  faults w = [] ->
  delete_all w
  = (Ok {[ "minions" := []; "minions_pre" := []; "minions_rejected" := [];
           "minions_denied" := [] ]},
     served_world [] 1 w).
Proof.
  intros Hf. rewrite <- translate_empty_listing. unfold delete_all. apply compat_ok.
  unfold bind at 1. rewrite (run_query_served DeleteAll w Hf eq_refl). cbn [exec fst].
  unfold bind at 1. rewrite rotate_served.
  by rewrite (list_keys_healthy (served_world [] 1 w)).
Qed.

Lemma delete_all_served_witness :
  delete_all demo
  = (Ok {[ "minions" := []; "minions_pre" := []; "minions_rejected" := [];
           "minions_denied" := [] ]},
     served_world [] 1 demo).
Proof. apply (delete_all_served demo). reflexivity. Defined.

(** ** [reject_all], and [accept_all] on a table with a primary key *)

Lemma promote_as_state from to_ (t : list row) :
  map (promote from to_ (names_in from t)) t = map (promote_state from to_) t.
Proof.
  apply map_ext_in. intros r Hr. unfold promote, promote_state.
  apply (f_equal (fun b : bool => if b then set_state to_ r else r)).
  apply bool_decide_ext. split; [tauto|]. intros Hs. split; [done|].
  apply names_in_elem. exists r. by rewrite <- list_elem_of_In in Hr.
Qed.

Lemma apply_update_swap to_ from n t :
  apply_update to_ (And (StateIs from) (IdIs n)) t
  = apply_update to_ (And (IdIs n) (StateIs from)) t.
Proof.
  unfold apply_update. apply map_ext. intros r. cbn [holds]. by rewrite andb_comm.
Qed.

Lemma reject_all_updates (t : list row) :
  foldl (fun t n => apply_update REJ (And (StateIs PEND) (IdIs n)) t) t (names_in PEND t)
  = map (promote_state PEND REJ) t.
Proof.
  rewrite <- (promote_as_state PEND REJ), <- (strict_updates PEND REJ) by done.
  generalize (names_in PEND t) as names. intros names. generalize t as t0.
  induction names as [|n names IH]; intros t0; [done|].
  cbn [foldl]. by rewrite apply_update_swap, IH.
Qed.

Lemma reject_all_run w :
  faults w = [] ->
  Forall (fun n => sql_safe n = true) (names_in PEND (table w)) ->
  reject_all w
  = (Ok (translate (listing (map (promote_state PEND REJ) (table w)))),
     set_table (map (promote_state PEND REJ) (table w)) [] w).
Proof.
  intros Hf Hs. unfold reject_all. apply compat_ok.
  rewrite (bind_ok _ _ _ _ _ (list_keys_healthy w Hf)).
  unfold lift at 1. unfold bind at 1. rewrite listing_pending.
  unfold bind at 1.
  rewrite (foldM_updates REJ (fun n => And (StateIs PEND) (IdIs n)) _ w Hf).
  - rewrite reject_all_updates.
    by rewrite (list_keys_healthy (set_table _ [] w)).
  - eapply Forall_impl; [exact Hs|]. intros n Hn. cbn. by rewrite Hn.
Qed.

Section PromoteState.

Context (from to_ : string) (Hne : from <> to_).
Implicit Types (t : list row) (r : row).

Lemma promote_state_state r :
  state (promote_state from to_ r) = if bool_decide (state r = from) then to_ else state r.
Proof. unfold promote_state. by case_bool_decide. Qed.

Lemma promote_state_id r : minion_id (promote_state from to_ r) = minion_id r.
Proof. unfold promote_state. by case_bool_decide. Qed.

Lemma names_in_promote_from t : names_in from (map (promote_state from to_) t) = [].
Proof.
  apply names_in_nil_iff. unfold has_state. rewrite Exists_exists.
  intros (r' & Hin & Hs). apply list_elem_of_fmap in Hin as (r & -> & _).
  rewrite promote_state_state in Hs. case_bool_decide; congruence.
Qed.

Lemma names_in_promote_to t :
  names_in to_ (map (promote_state from to_) t) = names_in2 from to_ t.
Proof.
  unfold names_in, names_in2. induction t as [|r t IH]; [done|]. cbn [map].
  destruct (decide (state r = from \/ state r = to_)) as [H|H].
  - rewrite (filter_cons_True (fun r => _ \/ _)) by done.
    rewrite filter_cons_True.
    + cbn [fmap list_fmap]. rewrite promote_state_id. f_equal. apply IH.
    + rewrite promote_state_state. case_bool_decide; [done | tauto].
  - rewrite (filter_cons_False (fun r => _ \/ _)) by done.
    rewrite filter_cons_False; [apply IH|].
    rewrite promote_state_state. case_bool_decide; tauto.
Qed.

Lemma names_in_promote_other s t :
  s <> from -> s <> to_ -> names_in s (map (promote_state from to_) t) = names_in s t.
Proof.
  intros H1 H2. unfold names_in. induction t as [|r t IH]; [done|]. cbn [map].
  destruct (decide (state r = s)) as [H|H].
  - rewrite (filter_cons_True _ r t) by done.
    rewrite filter_cons_True.
    + cbn [fmap list_fmap]. rewrite promote_state_id. f_equal. apply IH.
    + rewrite promote_state_state. case_bool_decide; congruence.
  - rewrite (filter_cons_False _ r t) by done.
    rewrite filter_cons_False; [apply IH|].
    rewrite promote_state_state. case_bool_decide; congruence.
Qed.

End PromoteState.

Lemma listing_internal s t : s ∈ internal -> listing t !! s = Some (names_in s t).
Proof. intros H. rewrite listing_lookup. by rewrite decide_True. Qed.

Lemma internal_acc : ACC ∈ internal.
Proof. unfold internal. left. Qed.
Lemma internal_pre : PEND ∈ internal.
Proof. unfold internal. right. left. Qed.
Lemma internal_rej : REJ ∈ internal.
Proof. unfold internal. do 2 right. left. Qed.
Lemma internal_den : DEN ∈ internal.
Proof. unfold internal. do 3 right. left. Qed.

(** X5. Against a served backend [reject_all] moves every pending row, and
    no other, to rejected. The listing it returns has an empty pending
    bucket, the rejected bucket holds what was pending or rejected (in table
    order), and the accepted and denied buckets are as before. *)
Theorem reject_all_served w :
  faults w = [] ->
  Forall (fun n => sql_safe n = true) (names_in PEND (table w)) ->
  exists d,
    reject_all w = (Ok d, set_table (map (promote_state PEND REJ) (table w)) [] w)
    /\ d !! "minions_pre" = Some []
    /\ d !! "minions_rejected" = Some (names_in2 PEND REJ (table w))
    /\ d !! "minions" = Some (names_in ACC (table w))
    /\ d !! "minions_denied" = Some (names_in DEN (table w)).
Proof.
  intros Hf Hs. eexists. split; [by apply reject_all_run|].
  split; [|split; [|split]].
  - apply (translate_moves _ PEND); [done|].
    by rewrite (listing_internal _ _ internal_pre), names_in_promote_from.
  - apply (translate_moves _ REJ); [done|].
    by rewrite (listing_internal _ _ internal_rej), names_in_promote_to.
  - apply (translate_moves _ ACC); [done|].
    by rewrite (listing_internal _ _ internal_acc), names_in_promote_other.
  - apply (translate_moves _ DEN); [done|].
    by rewrite (listing_internal _ _ internal_den), names_in_promote_other.
Qed.

Lemma reject_all_served_witness :
  exists d,
    reject_all demo = (Ok d, set_table (map (promote_state PEND REJ) (table demo)) [] demo)
    /\ d !! "minions_pre" = Some []
    /\ d !! "minions_rejected" = Some (names_in2 PEND REJ (table demo))
    /\ d !! "minions" = Some (names_in ACC (table demo))
    /\ d !! "minions_denied" = Some (names_in DEN (table demo)).
Proof.
  apply (reject_all_served demo); [reflexivity|]. vm_compute. repeat constructor.
Defined.

(** ** [accept_all] when names are unique *)

Lemma NoDup_fmap_elem {A B} (f : A -> B) (l : list A) x y :
  NoDup (f <$> l) -> x ∈ l -> y ∈ l -> f x = f y -> x = y.
Proof.
  induction l as [|a l IH]; [by intros _ ?%not_elem_of_nil|].
  cbn. rewrite NoDup_cons. intros [Ha Hl] Hx Hy Hf.
  apply elem_of_cons in Hx as [->|Hx]; apply elem_of_cons in Hy as [->|Hy].
  - done.
  - destruct Ha. rewrite Hf. apply list_elem_of_fmap. by exists y.
  - destruct Ha. rewrite <- Hf. apply list_elem_of_fmap. by exists x.
  - by apply IH.
Qed.

Lemma promote_any_unique to_ (t : list row) :
  NoDup (minion_id <$> t) ->
  map (promote_any to_ (names_in PEND t)) t = map (promote_state PEND to_) t.
Proof.
  intros Hnd. apply map_ext_in. intros r Hr. apply list_elem_of_In in Hr.
  unfold promote_any, promote_state.
  apply (f_equal (fun b : bool => if b then set_state to_ r else r)).
  apply bool_decide_ext. rewrite names_in_elem. split.
  - intros (r' & Hr' & Hs & Hid).
    by rewrite <- (NoDup_fmap_elem minion_id t r' r Hnd Hr' Hr Hid).
  - intros Hs. by exists r.
Qed.

(** X6. When no two rows share a name (the primary key of the table),
    [accept_all] against a served backend moves every pending row, and no
    other, to accepted: the accepted bucket of the listing it returns holds
    what was pending or accepted, the pending bucket is empty, and the
    rejected and denied buckets are as before. *)
Theorem accept_all_unique w :
  faults w = [] ->
  Forall (fun n => sql_safe n = true) (names_in PEND (table w)) ->
  NoDup (minion_id <$> table w) ->
  exists d,
    accept_all w = (Ok d, set_table (map (promote_state PEND ACC) (table w)) [] w)
    /\ d !! "minions_pre" = Some []
    /\ d !! "minions" = Some (names_in2 PEND ACC (table w))
    /\ d !! "minions_rejected" = Some (names_in REJ (table w))
    /\ d !! "minions_denied" = Some (names_in DEN (table w)).
Proof.
  intros Hf Hs Hnd. eexists. split.
  { rewrite (accept_all_served w Hf Hs). cbn zeta. by rewrite promote_any_unique. }
  split; [|split; [|split]].
  - apply (translate_moves _ PEND); [done|].
    by rewrite (listing_internal _ _ internal_pre), names_in_promote_from.
  - apply (translate_moves _ ACC); [done|].
    by rewrite (listing_internal _ _ internal_acc), names_in_promote_to.
  - apply (translate_moves _ REJ); [done|].
    by rewrite (listing_internal _ _ internal_rej), names_in_promote_other.
  - apply (translate_moves _ DEN); [done|].
    by rewrite (listing_internal _ _ internal_den), names_in_promote_other.
Qed.

Lemma accept_all_unique_witness :
  exists d,
    accept_all demo = (Ok d, set_table (map (promote_state PEND ACC) (table demo)) [] demo)
    /\ d !! "minions_pre" = Some []
    /\ d !! "minions" = Some (names_in2 PEND ACC (table demo))
    /\ d !! "minions_rejected" = Some (names_in REJ (table demo))
    /\ d !! "minions_denied" = Some (names_in DEN (table demo)).
Proof.
  apply (accept_all_unique demo); [reflexivity | vm_compute; repeat constructor |].
  vm_compute. repeat (constructor; [rewrite ?elem_of_cons; intros H;
    repeat (destruct H as [H|H]; [discriminate H|]); by apply not_elem_of_nil in H|]).
  constructor.
Defined.

(** ** One bulk transition after another *)

Lemma promote_any_nil to_ (t : list row) : map (promote_any to_ []) t = t.
Proof.
  rewrite <- (map_id t) at 2. apply map_ext. intros r. unfold promote_any.
  rewrite bool_decide_eq_false_2; [done | apply not_elem_of_nil].
Qed.

Lemma promote_state_twice from to_ (t : list row) :
  from <> to_ ->
  map (promote_state from to_) (map (promote_state from to_) t)
  = map (promote_state from to_) t.
Proof.
  intros Hne. rewrite map_map. apply map_ext. intros r.
  destruct (decide (state r = from)) as [H|H].
  - assert (promote_state from to_ r = set_state to_ r) as ->
      by (unfold promote_state; by rewrite bool_decide_eq_true_2).
    unfold promote_state. by rewrite bool_decide_eq_false_2 by (cbn; congruence).
  - assert (promote_state from to_ r = r) as ->
      by (unfold promote_state; by rewrite bool_decide_eq_false_2).
    unfold promote_state. by rewrite bool_decide_eq_false_2.
Qed.

(** X7. [reject_all] against a served backend sets every pending row to
    rejected and returns the translated listing of the table it leaves, in
    which nothing is pending: a second [reject_all] and an [accept_all]
    both return that listing and leave the store as it is, so what was
    rejected in bulk is not accepted by a following [accept_all]. *)
Theorem reject_all_then_bulk w :
  faults w = [] ->
  Forall (fun n => sql_safe n = true) (names_in PEND (table w)) ->
  exists d w1,
    reject_all w = (Ok d, w1)
    /\ reject_all w1 = (Ok d, w1)
    /\ accept_all w1 = (Ok d, w1)
    /\ table w1 = map (promote_state PEND REJ) (table w)
    /\ names_in PEND (table w1) = []
    /\ d = translate (listing (table w1))
    /\ d !! "minions_pre" = Some [].
Proof.
  intros Hf Hs.
  set (t1 := map (promote_state PEND REJ) (table w)).
  assert (names_in PEND t1 = []) as Hnone by (by apply names_in_promote_from).
  exists (translate (listing t1)), (set_table t1 [] w).
  split; [by apply reject_all_run|]. split; [|split].
  - rewrite (reject_all_run (set_table t1 [] w)); cbn [table set_table faults].
    + unfold t1. by rewrite promote_state_twice.
    + done.
    + by rewrite Hnone.
  - rewrite (accept_all_served (set_table t1 [] w)); cbn [table set_table faults].
    + by rewrite Hnone, promote_any_nil.
    + done.
    + by rewrite Hnone.
  - cbn [table set_table]. split; [done|]. split; [done|]. split; [done|].
    apply (translate_moves _ PEND); [done|].
    by rewrite (listing_internal _ _ internal_pre), Hnone.
Qed.

Lemma reject_all_then_bulk_witness :
  exists d w1,
    reject_all demo = (Ok d, w1)
    /\ reject_all w1 = (Ok d, w1)
    /\ accept_all w1 = (Ok d, w1)
    /\ table w1 = map (promote_state PEND REJ) (table demo)
    /\ names_in PEND (table w1) = []
    /\ d = translate (listing (table w1))
    /\ d !! "minions_pre" = Some [].
Proof.
  apply (reject_all_then_bulk demo); [reflexivity|]. vm_compute. repeat constructor.
Defined.

(** ** [delete_key] on a target that is not empty *)

Section DeleteKey.

Implicit Types (d : gmap string (list string)) (t : list row).

Lemma delete_loop_flat (kvs : list (string * list string)) : forall ret w,
  foldM (fun (ret : option bool) (sk : string * list string) =>
           foldM delete_step ret sk.2) ret kvs w
  = foldM delete_step ret (kvs ≫= snd) w.
Proof.
  induction kvs as [|kv kvs IH]; intros ret w; [done|].
  cbn [foldM]. rewrite bind_cons, foldM_app. unfold bind.
  destruct (foldM delete_step ret kv.2 w) as [[ret'| |] w1]; [|done..]. apply IH.
Qed.

Lemma delete_rows_filter names : forall t,
  foldl (fun t n => filter (fun r => holds (IdIs n) r = false) t) t names
  = filter (fun r => minion_id r ∉ names) t.
Proof.
  induction names as [|n names IH]; intros t; cbn [foldl].
  - induction t as [|r t IHt]; [done|].
    rewrite filter_cons_True by apply not_elem_of_nil. by rewrite <- IHt.
  - rewrite IH, list_filter_filter. apply list_filter_iff. intros r.
    rewrite holds_id, bool_decide_eq_false, not_elem_of_cons. tauto.
Qed.

Lemma delete_loop_served names : forall ret w,
  faults w = [] ->
  Forall (fun n => sql_safe n = true) names ->
  foldM delete_step ret names w
  = (Ok (match names with [] => ret | _ => Some true end),
     set_table (foldl (fun t n => filter (fun r => holds (IdIs n) r = false) t)
                      (table w) names) [] w).
Proof.
  induction names as [|n names IH]; intros ret w Hf Hs.
  - cbn. unfold pure. by rewrite <- Hf, set_table_same.
  - apply Forall_cons in Hs as [Hn Hs]. cbn [foldM foldl]. unfold delete_step at 1.
    unfold bind at 1 2.
    rewrite (run_query_served (DeleteWhere (IdIs n)) w Hf) by (cbn; by rewrite Hn).
    cbn [exec pure fst]. rewrite IH by done. cbn [table set_table].
    by destruct names.
Qed.

Lemma delete_key_mapping_run d flag w :
  faults w = [] ->
  Forall (fun n => sql_safe n = true) (names_of d) ->
  names_of d <> [] ->
  delete_key None (Some d) flag w
  = (Ok ∅, served_world (filter (fun r => minion_id r ∉ names_of d) (table w)) 1 w).
Proof.
  intros Hf Hs Hne. unfold delete_key.
  rewrite <- (translate_empty (V := list string)). apply compat_ok.
  unfold resolve. unfold bind at 1. unfold pure at 1. unfold bind at 1.
  change (fun (_ : option bool) key =>
            rd <~ run_query (DeleteWhere (IdIs key)) ;; pure (Some rd.1))
    with delete_step.
  rewrite delete_loop_flat. fold (names_of d).
  rewrite (delete_loop_served _ None w Hf Hs), delete_rows_filter.
  destruct (names_of d) as [|n names] eqn:E; [done|]. rewrite <- E.
  unfold bind. rewrite rotate_served. reflexivity.
Qed.

End DeleteKey.

(** X8. Called with a mapping that lists at least one name, [delete_key]
    against a served backend removes every row whose name is listed,
    whatever its state and whatever bucket lists it, keeps every other row
    in place, asks for the drop file once when [rotate_aes_key] is set, and
    returns the empty mapping; [preserve_minions] plays no role. *)
Theorem delete_key_by_mapping (d : gmap string (list string)) flag w :
  faults w = [] ->
  Forall (fun n => sql_safe n = true) (names_of d) ->
  names_of d <> [] ->
  delete_key None (Some d) flag w
  = (Ok ∅, served_world (filter (fun r => minion_id r ∉ names_of d) (table w)) 1 w).
Proof. apply delete_key_mapping_run. Qed.

Lemma delete_key_by_mapping_witness :
  delete_key None (Some {[ "acc" := ["minion_pre"; "nobody"] ]}) true demo
  = (Ok ∅,
     served_world (filter (fun r => minion_id r ∉ names_of {[ "acc" := ["minion_pre"; "nobody"] ]})
                          (table demo)) 1 demo).
Proof.
  apply (delete_key_by_mapping {[ "acc" := ["minion_pre"; "nobody"] ]} true demo).
  - reflexivity.
  - vm_compute. repeat constructor.
  - vm_compute. discriminate.
Defined.

Lemma names_of_singleton s (l : list string) : names_of {[ s := l ]} = l.
Proof. unfold names_of. rewrite map_to_list_singleton. cbn. apply app_nil_r. Qed.

Lemma delete_key_mapping_loop (d : gmap string (list string)) flag w :
  delete_key None (Some d) flag w
  = compat (ret <~ foldM delete_step None (names_of d) ;;
            match ret with
            | Some true => _ <~ rotate ;; dict_match d
            | _ => raise (AttributeError None)
            end) w.
Proof.
  unfold delete_key, compat. unfold resolve.
  change (fun (_ : option bool) key =>
            rd <~ run_query (DeleteWhere (IdIs key)) ;; pure (Some rd.1))
    with delete_step.
  unfold bind, pure. cbv beta iota. by rewrite delete_loop_flat.
Qed.

(** X9. [delete_key] reports the outcome of its last statement only. When
    the statement for the first of two names fails and the second is
    served, the call returns normally although the first row is still
    there; when the first is served and the second fails, the call raises
    [AttributeError] although the first row is gone, and no drop file is
    asked for. *)
Theorem delete_key_last_outcome s n1 n2 code flag t w :
  sql_safe n1 = true -> sql_safe n2 = true ->
  delete_key None (Some {[ s := [n1; n2] ]}) flag (set_table t [Some code] w)
  = (Ok ∅, served_world (filter (fun r => minion_id r <> n2) t) 1 w)
  /\ delete_key None (Some {[ s := [n1; n2] ]}) flag (set_table t [None; Some code] w)
     = (Raise (AttributeError None), set_table (filter (fun r => minion_id r <> n1) t) [] w).
Proof.
  intros H1 H2.
  assert (forall n (t0 : list row),
            filter (fun r => holds (IdIs n) r = false) t0
            = filter (fun r => minion_id r <> n) t0) as Hfilter.
  { intros n t0. apply list_filter_iff. intros r.
    by rewrite holds_id, bool_decide_eq_false. }
  rewrite !delete_key_mapping_loop, !names_of_singleton.
  unfold compat, delete_step. cbn [foldM]. unfold bind, pure, run_query.
  cbn [stmt_safe cond_safe]. rewrite H1, H2.
  cbn [faults set_table table tail exec fst snd]. rewrite !Hfilter.
  split; [|reflexivity].
  unfold rotate, dict_match, pure. rewrite translate_empty.
  by destruct w as [t0 fs l [] dr].
Qed.

Lemma delete_key_last_outcome_witness :
  delete_key None (Some {[ "pre" := ["minion_pre"; "minion"] ]}) false
             (set_table demo_rows [Some 1205] demo)
  = (Ok ∅, served_world (filter (fun r => minion_id r <> "minion") demo_rows) 1 demo)
  /\ delete_key None (Some {[ "pre" := ["minion_pre"; "minion"] ]}) false
                (set_table demo_rows [None; Some 1205] demo)
     = (Raise (AttributeError None),
        set_table (filter (fun r => minion_id r <> "minion_pre") demo_rows) [] demo).
Proof.
  apply (delete_key_last_outcome "pre" "minion_pre" "minion" 1205 false demo_rows demo);
    reflexivity.
Defined.

(** X10. An identity that was added and is then deleted (by a mapping that
    lists its name, under whatever state) is gone and the table is what it
    was before the two calls. *)
Theorem add_key_then_delete_key n k ty key_state s flag w :
  faults w = [] ->
  row_safe (new_row n k ty key_state) = true ->
  n ∉ minion_id <$> table w ->
  exists w1,
    add_key n k ty key_state w = (Ok (Tuples []), w1)
    /\ delete_key None (Some {[ s := [n] ]}) flag w1
       = (Ok ∅, served_world (table w) 1 w).
Proof.
  intros Hf Hs Hn. eexists. split; [by apply add_key_fresh|].
  rewrite delete_key_mapping_run; cbn [table faults set_table];
    rewrite ?names_of_singleton; try done.
  - f_equal. unfold served_world. cbn [table set_table local rotate_aes_key dropfiles].
    f_equal. rewrite filter_app.
    assert (filter (fun r => minion_id r ∉ [n]) (table w) = table w) as ->.
    { clear -Hn. induction (table w) as [|r t IH]; [done|].
      cbn in Hn. apply not_elem_of_cons in Hn as [Hne Ht].
      rewrite filter_cons_True; [by rewrite IH|].
      rewrite not_elem_of_cons. split; [congruence | apply not_elem_of_nil]. }
    rewrite filter_cons_False; [by rewrite app_nil_r|].
    intros H. apply H. cbn. left.
  - constructor; [|constructor].
    unfold row_safe in Hs. cbn in Hs.
    by destruct (sql_safe n).
Qed.

Lemma add_key_then_delete_key_witness :
  exists w1,
    add_key "web01" "KEY" "zmq" None demo = (Ok (Tuples []), w1)
    /\ delete_key None (Some {[ "pre" := ["web01"] ]}) false w1
       = (Ok ∅, served_world (table demo) 1 demo).
Proof.
  apply (add_key_then_delete_key "web01" "KEY" "zmq" None "pre" false demo).
  - reflexivity.
  - reflexivity.
  - vm_compute. intros H. repeat (apply elem_of_cons in H as [H|H]; [discriminate H|]).
    by apply not_elem_of_nil in H.
Defined.

(** ** [list_status] *)

Section ListStatus.

Implicit Types (st : string).

Lemma status_word_internal (match_ : string) st : status_word match_ = Some st -> st ∈ internal.
Proof.
  unfold status_word.
  repeat (match goal with |- context [if ?b then _ else _] => destruct b end);
    intros [= <-]; [apply internal_acc | apply internal_pre | apply internal_rej
                    | apply internal_den].
Qed.

Lemma list_status_fetch (match_ : string) st :
  status_word match_ = Some st ->
  list_status match_
  = compat (rd <~ run_query (SelectId (StateIs st)) ;;
            if rd.1 then
              names <~ lift (foldR (fun acc e =>
                                      match item 0 e with
                                      | Ok x => Ok (acc ++ [x])
                                      | Raise e => Raise e
                                      | Beyond => Beyond
                                      end) [] (entries rd.2)) ;;
              pure (<[match_ := names]> ({[ st := [] ]} : gmap string (list string)))
            else raise TypeError).
Proof.
  unfold status_word, list_status.
  destruct (String.prefix "acc" match_); [by intros [= <-]|].
  destruct (String.prefix "pre" match_ || String.prefix "un" match_); [by intros [= <-]|].
  destruct (String.prefix "rej" match_); [by intros [= <-]|].
  destruct (String.prefix "den" match_); [by intros [= <-]|]. done.
Qed.

Lemma foldR_first_items (l : list row) : forall acc,
  foldR (fun acc e =>
           match item 0 e with
           | Ok x => Ok (acc ++ [x])
           | Raise e => Raise e
           | Beyond => Beyond
           end) acc (map (fun r => [minion_id r]) l)
  = Ok (acc ++ (minion_id <$> l)).
Proof.
  induction l as [|r l IH]; intros acc; cbn [map foldR fmap list_fmap].
  - by rewrite app_nil_r.
  - cbn [item lookup list_lookup]. rewrite IH. by rewrite <- app_assoc.
Qed.

Lemma filter_state_is st (t : list row) :
  filter (fun r => holds (StateIs st) r = true) t = filter (fun r => state r = st) t.
Proof.
  apply list_filter_iff. intros r. cbn. by rewrite String.eqb_eq.
Qed.

Lemma list_status_run (match_ : string) st w :
  status_word match_ = Some st ->
  faults w = [] ->
  list_status match_ w
  = (Ok (translate (<[match_ := names_in st (table w)]> {[ st := [] ]})), w).
Proof.
  intros Hw Hf. rewrite (list_status_fetch _ _ Hw). apply compat_ok.
  assert (sql_safe st = true) as Hs.
  { apply status_word_internal in Hw. unfold internal in Hw.
    rewrite !elem_of_cons in Hw.
    destruct Hw as [->|[->|[->|[->|H]]]]; try reflexivity. by apply not_elem_of_nil in H. }
  unfold bind at 1. rewrite (run_query_served (SelectId (StateIs st)) w Hf Hs).
  cbn [exec fst snd entries]. rewrite <- Hf at 1. rewrite set_table_same.
  unfold bind, lift. rewrite foldR_first_items, filter_state_is. reflexivity.
Qed.

Lemma status_word_not_external (match_ : string) st a :
  status_word match_ = Some st -> trans_map !! a <> Some match_.
Proof.
  intros Hw Ha. apply trans_map_pairs in Ha. rewrite !elem_of_cons in Ha.
  destruct Ha as [?|[?|[?|[?|Ha]]]]; [simplify_eq..|by apply not_elem_of_nil in Ha];
    vm_compute in Hw; discriminate Hw.
Qed.

Lemma external_or_not (k : string) :
  (exists a, trans_map !! a = Some k) \/ (forall a, trans_map !! a <> Some k).
Proof.
  destruct (decide (k ∈ (map_to_list trans_map).*2)) as [H|H].
  - left. apply list_elem_of_fmap in H as ([a b] & -> & H).
    exists a. by apply elem_of_map_to_list.
  - right. intros a Ha. apply H. apply list_elem_of_fmap. exists (a, k).
    split; [done | by apply elem_of_map_to_list].
Qed.

End ListStatus.

(** X11. Against a served backend, [list_status] called with a word that
    starts with [acc], [pre], [un], [rej] or [den] reads the names stored in
    that state and files them under the word it was given: when the word is
    the internal code itself the result is the one bucket under the external
    name; for any longer word ([accepted], [unaccepted], ...) the bucket
    under the external name is empty and the names are under the word. *)
Theorem list_status_word (match_ st ext : string) w :
  status_word match_ = Some st ->
  trans_map !! st = Some ext ->
  faults w = [] ->
  exists d,
    list_status match_ w = (Ok d, w)
    /\ (match_ = st ->
          d = {[ ext := names_in st (table w) ]})
    /\ (match_ <> st ->
          d !! ext = Some [] /\ d !! match_ = Some (names_in st (table w))).
Proof.
  intros Hw Hext Hf. eexists. split; [by apply list_status_run|]. split.
  - intros ->. rewrite insert_singleton_eq. apply map_eq. intros k.
    destruct (decide (k = ext)) as [->|Hk].
    + rewrite lookup_singleton_eq.
      apply (translate_moves _ st); [done | apply lookup_singleton_eq].
    + rewrite lookup_singleton_ne by done.
      destruct (decide (k ∈ internal)) as [Hi|Hi]; [by apply translate_internal|].
      destruct (external_or_not k) as [[a Ha]|Hn].
      * rewrite (translate_stays _ a k Ha).
        -- apply lookup_singleton_ne. intros <-. apply Hi.
           by eapply status_word_internal.
        -- apply lookup_singleton_ne. intros <-. congruence.
      * rewrite translate_other; [|done..].
        apply lookup_singleton_ne. intros <-. apply Hi. by eapply status_word_internal.
  - intros Hne. split.
    + apply (translate_moves _ st); [done|].
      rewrite lookup_insert_ne by done. apply lookup_singleton_eq.
    + rewrite translate_other.
      * apply lookup_insert_eq.
      * intros Hi. unfold internal, ACC, PEND, REJ, DEN in Hi. rewrite !elem_of_cons in Hi.
        destruct Hi as [->|[->|[->|[->|Hi]]]]; [..|by apply not_elem_of_nil in Hi];
          vm_compute in Hw; by injection Hw as <-.
      * intros a. by eapply status_word_not_external.
Qed.

Lemma list_status_word_witness :
  exists d,
    list_status "accepted" demo = (Ok d, demo)
    /\ ("accepted" = "acc" -> d = {[ "minions" := names_in "acc" (table demo) ]})
    /\ ("accepted" <> "acc" ->
          d !! "minions" = Some [] /\ d !! "accepted" = Some (names_in "acc" (table demo))).
Proof.
  apply (list_status_word "accepted" "acc" "minions" demo); reflexivity.
Defined.

(** ** [all_keys] *)

Lemma trans_map_source_internal a b : trans_map !! a = Some b -> a ∈ internal.
Proof.
  intros Hab. apply trans_map_pairs in Hab. rewrite !elem_of_cons in Hab.
  destruct Hab as [?|[?|[?|[?|Hab]]]]; [simplify_eq..|by apply not_elem_of_nil in Hab].
  - apply internal_acc.
  - apply internal_rej.
  - apply internal_den.
  - apply internal_pre.
Qed.

Lemma local_not_internal : "local" ∉ internal.
Proof.
  unfold internal, ACC, PEND, REJ, DEN. rewrite !elem_of_cons, elem_of_nil. intros H.
  repeat (destruct H as [H|H]; [discriminate H|]). done.
Qed.

Lemma all_keys_run w :
  faults w = [] ->
  all_keys w = (Ok (translate ({[ "local" := local w ]} ∪ listing (table w))), w).
Proof.
  intros Hf. unfold all_keys. apply compat_ok.
  by rewrite (bind_ok _ _ _ _ _ (list_keys_healthy w Hf)).
Qed.

(** X13. Against a served backend [all_keys] returns the listing under the
    external names together with the key [local], bound to the local key
    files; the local files take the place of the names of rows whose state
    is [local], and the store is left as it is. *)
Theorem all_keys_served w :
  faults w = [] ->
  exists d,
    all_keys w = (Ok d, w)
    /\ d !! "local" = Some (local w)
    /\ (forall a b, trans_map !! a = Some b -> d !! b = Some (names_in a (table w)))
    /\ (forall k, k ∈ internal -> d !! k = None).
Proof.
  intros Hf. eexists. split; [by apply all_keys_run|]. split; [|split].
  - rewrite translate_other.
    + apply lookup_union_Some_l, lookup_singleton_eq.
    + apply local_not_internal.
    + intros a Ha. apply trans_map_pairs in Ha. rewrite !elem_of_cons, elem_of_nil in Ha.
      repeat (destruct Ha as [Ha|Ha]; [discriminate Ha|]). done.
  - intros a b Hab. apply (translate_moves _ a b); [done|].
    pose proof (trans_map_source_internal a b Hab) as Hi.
    rewrite lookup_union_r.
    + by apply listing_internal.
    + apply lookup_singleton_ne. intros <-. by apply local_not_internal.
  - intros k Hk. by apply translate_internal.
Qed.

Lemma all_keys_served_witness :
  exists d,
    all_keys demo = (Ok d, demo)
    /\ d !! "local" = Some (local demo)
    /\ (forall a b, trans_map !! a = Some b -> d !! b = Some (names_in a (table demo)))
    /\ (forall k, k ∈ internal -> d !! k = None).
Proof. apply (all_keys_served demo). reflexivity. Defined.

(** ** The translation applied twice *)

(** X14. Decorating twice is decorating once: the renaming of [compat]
    leaves a result that already went through it as it is (as happens to
    what [list_status] returns for [all], which [all_keys] decorated). *)
Theorem translate_idempotent {V} (d : gmap string V) :
  translate (translate d) = translate d.
Proof.
  apply map_eq. intros k.
  destruct (decide (k ∈ internal)) as [Hi|Hi].
  - by rewrite !translate_internal.
  - destruct (external_or_not k) as [[a Ha]|Hn].
    + apply translate_stays with a; [done|]. apply translate_internal.
      by eapply trans_map_source_internal.
    + by apply translate_other.
Qed.

(** ** A failed read *)

Lemma list_keys_fault w code fs :
  faults w = Some code :: fs ->
  list_keys w
  = (Raise (AttributeError (Some (error_text code))), set_table (table w) fs w).
Proof.
  intros Hf. unfold list_keys. unfold bind.
  by rewrite (run_query_fault SelectIdState w code fs Hf eq_refl).
Qed.

Lemma name_match_fault (match_ : string) w code fs :
  faults w = Some code :: fs ->
  name_match match_ false w
  = (Raise (AttributeError (Some (error_text code))), set_table (table w) fs w).
Proof.
  intros Hf. unfold name_match. by rewrite (bind_raise _ _ _ _ _ (list_keys_fault _ _ _ Hf)).
Qed.

Lemma compat_raise {V} (func : M (gmap string V)) w e w' :
  func w = (Raise e, w') -> compat func w = (Raise e, w').
Proof. intros H. unfold compat. by rewrite (bind_raise _ _ _ _ _ H). Qed.

(** X15. When the read of the table that opens an operation fails, the
    operation raises [AttributeError] with the text [error_map] gives for
    the error number and runs no further statement: the table is as it was.
    So do [list_keys], [all_keys], [name_match], [accept], [reject] and
    [delete_key] by pattern, [accept_all], [reject_all], [key_str] and
    [key_str_all]. *)
Theorem read_failure_raises w code fs :
  faults w = Some code :: fs ->
  let failed {A} : result A * world :=
    (Raise (AttributeError (Some (error_text code))), set_table (table w) fs w) in
  list_keys w = failed
  /\ all_keys w = failed
  /\ (forall m, name_match m false w = failed)
  /\ (forall m md flag, accept (Some m) md flag w = failed)
  /\ (forall m md flag, reject (Some m) md flag w = failed)
  /\ (forall m md flag, delete_key (Some m) md flag w = failed)
  /\ accept_all w = failed
  /\ reject_all w = failed
  /\ (forall m, key_str m w = failed)
  /\ key_str_all w = failed.
Proof.
  intros Hf failed.
  pose proof (list_keys_fault w code fs Hf) as Hl.
  pose proof (fun m => name_match_fault m w code fs Hf) as Hn.
  repeat split; try done; intros;
    apply compat_raise; (by apply bind_raise) || (apply bind_raise; by apply bind_raise).
Qed.

Lemma read_failure_raises_witness :
  let w := set_table demo_rows [Some 2006] demo in
  let failed {A} : result A * world :=
    (Raise (AttributeError (Some (error_text 2006))), set_table (table w) [] w) in
  list_keys w = failed
  /\ all_keys w = failed
  /\ (forall m, name_match m false w = failed)
  /\ (forall m md flag, accept (Some m) md flag w = failed)
  /\ (forall m md flag, reject (Some m) md flag w = failed)
  /\ (forall m md flag, delete_key (Some m) md flag w = failed)
  /\ accept_all w = failed
  /\ reject_all w = failed
  /\ (forall m, key_str m w = failed)
  /\ key_str_all w = failed.
Proof. apply (read_failure_raises (set_table demo_rows [Some 2006] demo) 2006 []). reflexivity. Defined.

(** ** Patterns on an empty store *)

Lemma listing_nil_list :
  map_to_list (listing [])
  = [("acc", []); ("rej", []); ("den", []); ("pre", [])].
Proof. vm_compute. reflexivity. Qed.

Lemma select_no_names m : select m (listing []) = Ok ∅.
Proof. unfold select. rewrite listing_nil_list. reflexivity. Qed.

(** X16. On a store without rows no pattern is ever compiled: [name_match]
    returns the empty mapping for every string, also for one that is not a
    regular expression or that holds a comma, and [accept] and [reject]
    return the empty mapping and change nothing. *)
Theorem empty_store_matches_nothing (m : string) (flag : bool) w :
  faults w = [] ->
  table w = [] ->
  name_match m false w = (Ok ∅, w)
  /\ accept (Some m) None flag w = (Ok ∅, w)
  /\ reject (Some m) None flag w = (Ok ∅, w).
Proof.
  intros Hf Ht.
  assert (name_match m false w = (Ok ∅, w)) as Hn.
  { unfold name_match. rewrite (bind_ok _ _ _ _ _ (list_keys_healthy w Hf)).
    unfold lift. by rewrite Ht, select_no_names. }
  split; [done|].
  assert (for_each_minion
            (fun minion =>
               if flag then transition_query flag [store_table; ACC; minion; PEND; REJ]
               else transition_query flag [store_table; ACC; minion; PEND]) ∅ w
          = (Ok tt, w)) as Ha by done.
  assert (for_each_minion
            (fun minion =>
               if flag then transition_query flag [store_table; REJ; minion; PEND; ACC]
               else transition_query flag [store_table; REJ; minion; ACC]) ∅ w
          = (Ok tt, w)) as Hr by done.
  split.
  - unfold accept. rewrite <- (translate_empty (V := list string)). apply compat_ok.
    unfold resolve, report. rewrite (bind_ok _ _ _ _ _ Hn).
    by rewrite (bind_ok _ _ _ _ _ Ha).
  - unfold reject. rewrite <- (translate_empty (V := list string)). apply compat_ok.
    unfold resolve, report. rewrite (bind_ok _ _ _ _ _ Hn).
    by rewrite (bind_ok _ _ _ _ _ Hr).
Qed.

Lemma empty_store_matches_nothing_witness :
  name_match "(web,*" false (store []) = (Ok ∅, store [])
  /\ accept (Some "(web,*") None true (store []) = (Ok ∅, store [])
  /\ reject (Some "(web,*") None true (store []) = (Ok ∅, store []).
Proof. apply (empty_store_matches_nothing "(web,*" true (store [])); reflexivity. Defined.

(** ** Runs that stay within the modelled statements *)

Section InModel.

Implicit Types (d : gmap string (list string)) (t : list row).

Lemma run_query_in_model q w :
  stmt_safe q = true -> exists rd w', run_query q w = (Ok rd, w').
Proof.
  intros Hs. unfold run_query. rewrite Hs.
  destruct (faults w) as [|[code|] fs]; [| by eauto |];
    (destruct (exec q (table w)) as [code|[data t']]; by eauto).
Qed.

Lemma bind_in_model {A B} (m : M A) (f : A -> M B) w :
  (m w).1 <> Beyond ->
  (forall a w', m w = (Ok a, w') -> (f a w').1 <> Beyond) ->
  (bind m f w).1 <> Beyond.
Proof.
  intros Hm Hf. unfold bind. destruct (m w) as [[a|e|] w'] eqn:E; cbn [fst] in *;
    [by apply Hf | done | done].
Qed.

Lemma compat_in_model {V} (func : M (gmap string V)) w :
  (func w).1 <> Beyond -> (compat func w).1 <> Beyond.
Proof. intros H. unfold compat. apply bind_in_model; [done|]. by intros. Qed.

Lemma list_keys_in_model w : (list_keys w).1 <> Beyond.
Proof.
  unfold list_keys, bind, run_query. cbn [stmt_safe exec].
  destruct (faults w) as [|[code|] fs]; cbn [fst snd entries tail];
    unfold lift, raise; rewrite ?foldR_place; cbn [fst]; done.
Qed.

Lemma table_names_pending t :
  Forall (fun r => sql_safe (minion_id r) = true) t ->
  forall s, Forall (fun n => sql_safe n = true) (names_in s t).
Proof.
  intros H s. apply Forall_forall. intros n Hn.
  apply names_in_elem in Hn as (r & Hr & _ & <-).
  by apply (proj1 (Forall_forall _ _) H).
Qed.

(** The bulk transitions stay within the modelled statements when the
    names in the table can be written into a statement. *)
Lemma bulk_in_model to_ (c : string -> cond) w :
  (forall n, sql_safe n = true -> stmt_safe (Update to_ (c n)) = true) ->
  Forall (fun r => sql_safe (minion_id r) = true) (table w) ->
  (compat (data <~ list_keys ;;
           pending <~ lift (getitem data PEND) ;;
           _ <~ foldM (fun (_ : unit) key =>
                         _ <~ run_query (Update to_ (c key)) ;; pure tt)
                      tt pending ;;
           list_keys) w).1 <> Beyond.
Proof.
  intros Hc Ht. apply compat_in_model. apply bind_in_model; [apply list_keys_in_model|].
  intros data w1 Hl.
  assert (data = listing (table w)) as -> by (apply list_keys_inv; by rewrite Hl).
  unfold lift at 1. unfold bind at 1. rewrite listing_pending.
  apply bind_in_model.
  - destruct (foldM_queries_ok (fun n => Update to_ (c n)) (names_in PEND (table w)) w1)
      as (w' & -> & _); [|done].
    eapply Forall_impl; [apply (table_names_pending _ Ht)|]. intros n. apply Hc.
  - intros _ w' _. apply list_keys_in_model.
Qed.

Lemma transition_mapping_ok (flag : bool) md w :
  Forall (fun n => sql_safe n = true) (names_of (default ∅ md)) ->
  (accept None md flag w).1 = Ok ∅ /\ (reject None md flag w).1 = Ok ∅.
Proof.
  intros Hs.
  assert (forall to_ from other,
    sql_safe to_ = true -> sql_safe from = true ->
    (compat (matches <~ resolve None md ;;
             _ <~ for_each_minion
                    (fun minion =>
                       if flag
                       then transition_query flag [store_table; to_; minion; from; other]
                       else transition_query flag [store_table; to_; minion; from])
                    matches ;;
             report None matches) w).1 = Ok ∅) as H.
  { intros to_ from other Ht Hfr.
    destruct md as [d|].
    - by destruct (transition_by_mapping_empty d flag to_ from other w Ht Hfr Hs) as (w' & ->).
    - destruct (transition_by_mapping_empty ∅ flag to_ from other w Ht Hfr Hs) as (w' & Hw).
      apply (f_equal fst) in Hw. exact Hw. }
  split.
  - apply (H ACC PEND REJ); reflexivity.
  - unfold reject. destruct flag; [apply (H REJ PEND ACC) | apply (H REJ ACC ACC)];
      reflexivity.
Qed.

Lemma delete_loop_in_model names : forall ret w,
  Forall (fun n => sql_safe n = true) names ->
  exists ret' w', foldM delete_step ret names w = (Ok ret', w').
Proof.
  induction names as [|n names IH]; intros ret w Hs; [by eexists _, _|].
  apply Forall_cons in Hs as [Hn Hs]. cbn [foldM].
  destruct (run_query_in_model (DeleteWhere (IdIs n)) w) as (rd & w1 & Hq); [done|].
  assert (delete_step ret n w = (Ok (Some rd.1), w1)) as Hd.
  { unfold delete_step. by rewrite (bind_ok _ _ _ _ _ Hq). }
  rewrite (bind_ok _ _ _ _ _ Hd). apply IH, Hs.
Qed.

Lemma delete_key_in_model (flag : bool) md w :
  Forall (fun n => sql_safe n = true) (names_of (default ∅ md)) ->
  (delete_key None md flag w).1 <> Beyond.
Proof.
  intros Hs.
  assert (delete_key None md flag w = delete_key None (Some (default ∅ md)) flag w) as ->
    by (by destruct md).
  rewrite delete_key_mapping_loop. apply compat_in_model.
  destruct (delete_loop_in_model _ None w Hs) as (ret' & w' & Hl).
  rewrite (bind_ok _ _ _ _ _ Hl). by destruct ret' as [[]|].
Qed.

Lemma delete_all_in_model w : (delete_all w).1 <> Beyond.
Proof.
  unfold delete_all. apply compat_in_model.
  destruct (run_query_in_model DeleteAll w) as (rd & w1 & Hq); [done|].
  rewrite (bind_ok _ _ _ _ _ Hq). destruct rd.1; [|done].
  apply bind_in_model; [done|]. intros _ w' _. apply list_keys_in_model.
Qed.

Lemma add_key_in_model n k ty key_state w :
  row_safe (new_row n k ty key_state) = true ->
  (add_key n k ty key_state w).1 <> Beyond.
Proof.
  intros Hs. unfold add_key. fold (new_row n k ty key_state).
  destruct (run_query_in_model (Insert (new_row n k ty key_state)) w) as (rd & w1 & Hq);
    [done|].
  rewrite (bind_ok _ _ _ _ _ Hq). by destruct rd.1.
Qed.

End InModel.

(** ** What the transitions never do *)

Section Moves.

Implicit Types (t : list row) (r : row).

#[local] Instance only_moved_refl from to_ : Reflexive (only_moved from to_).
Proof. intros t. induction t; constructor; [by left | done]. Qed.

#[local] Instance only_moved_trans from to_ : Transitive (only_moved from to_).
Proof.
  intros t1 t2 t3 H12. revert t3. induction H12 as [|r1 r2 t1 t2 H1 _ IH];
    intros t3 H23; [done|].
  inversion H23 as [|? r3 ? t3' H2 H23']; subst. constructor; [|by apply IH].
  destruct H1 as [->|[Hs ->]]; [done|]. destruct H2 as [->|[_ ->]]; right; by split.
Qed.

#[local] Instance only_set_to_refl to_ : Reflexive (only_set_to to_).
Proof. intros t. induction t; constructor; [by left | done]. Qed.

#[local] Instance only_set_to_trans to_ : Transitive (only_set_to to_).
Proof.
  intros t1 t2 t3 H12. revert t3. induction H12 as [|r1 r2 t1 t2 H1 _ IH];
    intros t3 H23; [done|].
  inversion H23 as [|? r3 ? t3' H2 H23']; subst. constructor; [|by apply IH].
  destruct H1 as [-> | ->]; [done|]. destruct H2 as [-> | ->]; by right.
Qed.

Lemma steps_eq_any (R : list row -> list row -> Prop) `{!Reflexive R} {A} (m : M A) :
  steps eq m -> steps R m.
Proof. intros H w. by rewrite <- (H w). Qed.

Lemma only_moved_update from to_ (c : cond) t :
  (forall r, holds c r = true -> state r = from) ->
  only_moved from to_ t (apply_update to_ c t).
Proof.
  intros Hc. induction t as [|r t IH]; [constructor|].
  cbn [apply_update map]. constructor; [|exact IH].
  destruct (holds c r) eqn:E; [right; split; [by apply Hc | done] | by left].
Qed.

Lemma steps_transition_loop flag to_ from other (matches : gmap string (list string)) :
  steps (only_moved from to_)
        (for_each_minion
           (fun minion =>
              if flag : bool
              then transition_query flag [store_table; to_; minion; from; other]
              else transition_query flag [store_table; to_; minion; from]) matches).
Proof.
  unfold for_each_minion. apply (steps_foldM (only_moved from to_)).
  intros [] [s keys] _. apply (steps_foldM (only_moved from to_)).
  intros [] n _. apply (steps_bind (only_moved from to_));
    [|intros; apply (steps_pure (only_moved from to_))].
  apply (steps_run_query (only_moved from to_)). intros t data t' Hex.
  destruct flag; cbn in Hex; injection Hex as _ <-.
  - apply (only_moved_update from to_ (Or (And (IdIs n) (StateIs from)) (StateIs from))).
    intros r. cbn. rewrite orb_true_iff, andb_true_iff, !String.eqb_eq. tauto.
  - apply (only_moved_update from to_ (And (IdIs n) (StateIs from))).
    intros r. cbn. rewrite andb_true_iff, !String.eqb_eq. tauto.
Qed.

Lemma steps_transition m md flag to_ from other :
  steps (only_moved from to_)
        (compat (matches <~ resolve m md ;;
                 _ <~ for_each_minion
                        (fun minion =>
                           if flag : bool
                           then transition_query flag [store_table; to_; minion; from; other]
                           else transition_query flag [store_table; to_; minion; from])
                        matches ;;
                 report m matches)).
Proof.
  unfold compat. apply (steps_bind (only_moved from to_));
    [|intros; apply (steps_pure (only_moved from to_))].
  apply (steps_bind (only_moved from to_));
    [apply (steps_eq_any (only_moved from to_)), steps_resolve|].
  intros matches. apply (steps_bind (only_moved from to_));
    [apply steps_transition_loop|].
  intros _. apply (steps_eq_any (only_moved from to_)), steps_report.
Qed.

Lemma steps_bulk (R : list row -> list row -> Prop) `{!Reflexive R} `{!Transitive R}
    to_ (c : string -> cond) :
  (forall n t, R t (apply_update to_ (c n) t)) ->
  steps R (compat (data <~ list_keys ;;
                   pending <~ lift (getitem data PEND) ;;
                   _ <~ foldM (fun (_ : unit) key =>
                                 _ <~ run_query (Update to_ (c key)) ;; pure tt)
                              tt pending ;;
                   list_keys)).
Proof.
  intros Hc. unfold compat. apply (steps_bind R); [|intros; apply (steps_pure R)].
  apply (steps_bind R); [apply (steps_eq_any R), steps_list_keys|].
  intros data. apply (steps_bind R); [apply (steps_lift R)|].
  intros pending. apply (steps_bind R); [|intros; apply (steps_eq_any R), steps_list_keys].
  apply (steps_foldM R). intros [] n _.
  apply (steps_bind R); [|intros; apply (steps_pure R)].
  apply (steps_run_query R). cbn. intros t data' t' [= _ <-]. apply Hc.
Qed.

(** X17. When the names in the table and in the mapping can be written
    into a statement, then whatever the pattern, the flag, the backend and
    the outcome, the transitions neither add nor remove a row nor touch a
    name, a key or a key type, and the only change of state they make is
    this: [accept], with or without [include_rejected], sets rows that were
    pending to accepted (never a rejected or a denied row); [reject] sets
    rows that were accepted to rejected without [include_accepted], and rows
    that were pending to rejected with it; [reject_all] sets pending rows to
    rejected; [accept_all] sets rows to accepted. In bulk and by mapping
    every statement of the run is one that the embedding executes: the bulk
    transitions do not end outside it, and by mapping [accept] and [reject]
    return the empty mapping. *)
Theorem transitions_only_move m md (flag : bool) w :
  Forall (fun r => sql_safe (minion_id r) = true) (table w) ->
  Forall (fun n => sql_safe n = true) (names_of (default ∅ md)) ->
  (only_moved PEND ACC (table w) (table (accept m md flag w).2)
   /\ only_moved (if flag then PEND else ACC) REJ (table w) (table (reject m md flag w).2)
   /\ only_moved PEND REJ (table w) (table (reject_all w).2)
   /\ only_set_to ACC (table w) (table (accept_all w).2))
  /\ ((reject_all w).1 <> Beyond /\ (accept_all w).1 <> Beyond)
  /\ (m = None -> (accept m md flag w).1 = Ok ∅ /\ (reject m md flag w).1 = Ok ∅).
Proof.
  intros Ht Hs. split; [split; [|split; [|split]] | split; [split|]].
  - apply (steps_transition m md flag ACC PEND REJ).
  - unfold reject. destruct flag.
    + apply (steps_transition m md true REJ PEND ACC).
    + apply (steps_transition m md false REJ ACC ACC).
  - unfold reject_all.
    refine (steps_bulk (only_moved PEND REJ) REJ
              (fun key => And (StateIs PEND) (IdIs key)) _ w).
    intros n t. apply only_moved_update. intros r. cbn.
    rewrite andb_true_iff, !String.eqb_eq. tauto.
  - unfold accept_all. refine (steps_bulk (only_set_to ACC) ACC IdIs _ w).
    intros n t. induction t as [|r t IH]; [constructor|].
    cbn [apply_update map]. constructor; [|exact IH].
    destruct (holds (IdIs n) r); [by right | by left].
  - unfold reject_all.
    apply (bulk_in_model REJ (fun key => And (StateIs PEND) (IdIs key)) w); [|done].
    intros n Hn. cbn. by rewrite Hn.
  - unfold accept_all. apply (bulk_in_model ACC IdIs w); [|done].
    intros n Hn. cbn. by rewrite Hn.
  - intros ->. by apply transition_mapping_ok.
Qed.

Lemma transitions_only_move_witness :
  let md : option (gmap string (list string)) := Some {[ "pre" := ["minion_pre"; "minion"] ]} in
  (only_moved PEND ACC (table demo) (table (accept None md true demo).2)
   /\ only_moved (if true then PEND else ACC) REJ (table demo)
                 (table (reject None md true demo).2)
   /\ only_moved PEND REJ (table demo) (table (reject_all demo).2)
   /\ only_set_to ACC (table demo) (table (accept_all demo).2))
  /\ ((reject_all demo).1 <> Beyond /\ (accept_all demo).1 <> Beyond)
  /\ ((None : option string) = None ->
      (accept None md true demo).1 = Ok ∅ /\ (reject None md true demo).1 = Ok ∅).
Proof.
  intros md. apply (transitions_only_move None md true demo).
  - vm_compute. repeat constructor.
  - vm_compute. repeat constructor.
Defined.

End Moves.


(** ** What the other operations never do *)

Section Reads.

Lemma steps_select_stmt (c : cond) (q : stmt) :
  q = SelectIdState \/ q = SelectId c \/ q = SelectIdKey c ->
  steps eq (run_query q).
Proof.
  intros Hq. apply (steps_run_query eq). intros t data t'.
  destruct Hq as [-> | [-> | ->]]; cbn; congruence.
Qed.

Lemma steps_all_keys : steps eq all_keys.
Proof.
  unfold all_keys, compat. apply (steps_bind eq); [|intros; apply (steps_pure eq)].
  apply (steps_bind eq); [apply steps_list_keys|]. intros keys.
  apply (steps_bind eq); [by intros w | intros; apply (steps_pure eq)].
Qed.

Lemma steps_name_match_full (match_ : string) (full : bool) :
  steps eq (name_match match_ full).
Proof.
  unfold name_match. apply (steps_bind eq); [|intros; apply (steps_lift eq)].
  destruct full; [apply steps_all_keys | apply steps_list_keys].
Qed.

Lemma steps_keys_of_state mk st : steps eq (keys_of_state mk st).
Proof.
  unfold keys_of_state. apply (steps_bind eq); [|intros; apply (steps_lift eq)].
  apply (steps_select_stmt (StateIs st)). tauto.
Qed.

Lemma steps_list_status (match_ : string) : steps eq (list_status match_).
Proof.
  assert (forall st, steps eq
    (rd <~ run_query (SelectId (StateIs st)) ;;
     if rd.1 then
       names <~ lift (foldR (fun acc e =>
                               match item 0 e with
                               | Ok x => Ok (acc ++ [x])
                               | Raise e => Raise e
                               | Beyond => Beyond
                               end) [] (entries rd.2)) ;;
       pure (<[match_ := names]> ({[ st := [] ]} : gmap string (list string)))
     else raise TypeError)) as Hfetch.
  { intros st. apply (steps_bind eq);
      [apply (steps_select_stmt (StateIs st)); tauto|].
    intros rd. destruct rd.1; [|apply (steps_raise eq)].
    apply (steps_bind eq); [apply (steps_lift eq) | intros; apply (steps_pure eq)]. }
  unfold list_status, compat. apply (steps_bind eq); [|intros; apply (steps_pure eq)].
  destruct (String.prefix "acc" match_); [apply Hfetch|].
  destruct (String.prefix "pre" match_ || String.prefix "un" match_); [apply Hfetch|].
  destruct (String.prefix "rej" match_); [apply Hfetch|].
  destruct (String.prefix "den" match_); [apply Hfetch|].
  destruct (String.prefix "all" match_); [apply steps_all_keys | apply (steps_raise eq)].
Qed.

Lemma steps_key_str (match_ : string) : steps eq (key_str match_).
Proof.
  unfold key_str, compat. apply (steps_bind eq); [|intros; apply (steps_pure eq)].
  apply (steps_bind eq); [apply steps_name_match|]. intros matched.
  apply (steps_foldM eq). intros mk sk _. apply steps_keys_of_state.
Qed.

Lemma steps_key_str_all : steps eq key_str_all.
Proof.
  unfold key_str_all, compat. apply (steps_bind eq); [|intros; apply (steps_pure eq)].
  apply (steps_bind eq); [apply steps_list_keys|]. intros data.
  apply (steps_foldM eq). intros mk sk _. apply steps_keys_of_state.
Qed.

End Reads.

(** X18. The operations that read ([list_keys], [all_keys], [name_match],
    [list_status], [key_str], [key_str_all]) leave the table as it is, for
    every argument, whatever the backend does and whether they return or
    raise. *)
Theorem reads_keep_table (m : string) (full : bool) w :
  table (list_keys w).2 = table w
  /\ table (all_keys w).2 = table w
  /\ table (name_match m full w).2 = table w
  /\ table (list_status m w).2 = table w
  /\ table (key_str m w).2 = table w
  /\ table (key_str_all w).2 = table w.
Proof.
  repeat split; symmetry.
  - apply steps_list_keys.
  - apply steps_all_keys.
  - apply steps_name_match_full.
  - apply steps_list_status.
  - apply steps_key_str.
  - apply steps_key_str_all.
Qed.

Section Removals.

#[local] Instance shrinks_refl : Reflexive (fun t t' : list row => sublist t' t).
Proof. intros t. reflexivity. Qed.

#[local] Instance shrinks_trans : Transitive (fun t t' : list row => sublist t' t).
Proof. intros t1 t2 t3 H12 H23. by etrans. Qed.

Lemma steps_delete_key m md flag :
  steps (fun t t' => sublist t' t) (delete_key m md flag).
Proof.
  set (R := fun t t' : list row => sublist t' t).
  unfold delete_key, compat. apply (steps_bind R); [|intros; apply (steps_pure R)].
  apply (steps_bind R); [apply (steps_eq_any R), steps_resolve|]. intros matches.
  apply (steps_bind R).
  - apply (steps_foldM R). intros ret sk _. apply (steps_foldM R). intros ret' key _.
    apply (steps_bind R); [|intros; apply (steps_pure R)].
    apply (steps_run_query R). cbn. intros t data t' [= _ <-]. apply sublist_filter.
  - intros [[]|]; try apply (steps_raise R).
    apply (steps_bind R); [|intros; apply (steps_eq_any R), steps_report].
    intros w. unfold rotate. cbn. by destruct (rotate_aes_key w).
Qed.

Lemma steps_delete_all : steps (fun t t' => sublist t' t) delete_all.
Proof.
  set (R := fun t t' : list row => sublist t' t).
  unfold delete_all, compat. apply (steps_bind R); [|intros; apply (steps_pure R)].
  apply (steps_bind R).
  - apply (steps_run_query R). cbn. intros t data t' [= _ <-]. apply sublist_nil_l.
  - intros rd. destruct rd.1; [|apply (steps_raise R)].
    apply (steps_bind R); [|intros; apply (steps_eq_any R), steps_list_keys].
    intros w. unfold rotate. cbn. by destruct (rotate_aes_key w).
Qed.

(** X19. When the names in the table and in the mapping, and the values
    given to [add_key], can be written into a statement: [delete_key] and
    [delete_all] only remove rows, that is, whatever the pattern, the flag,
    the backend and the outcome, the rows left are rows of the table
    before, unchanged and in the same order; [add_key] leaves the table as
    it is or adds one row with the name, key, type and state it was given,
    and never alters or moves a row that is there. [delete_key] by
    mapping, [delete_all] and [add_key] run no statement but those the
    embedding executes. *)
Theorem deletes_only_remove m md (flag : bool) n k ty key_state w :
  Forall (fun r => sql_safe (minion_id r) = true) (table w) ->
  Forall (fun n => sql_safe n = true) (names_of (default ∅ md)) ->
  row_safe (new_row n k ty key_state) = true ->
  (sublist (table (delete_key m md flag w).2) (table w)
   /\ sublist (table (delete_all w).2) (table w)
   /\ (table (add_key n k ty key_state w).2 = table w
       \/ (sublist (table w) (table (add_key n k ty key_state w).2)
           /\ table (add_key n k ty key_state w).2 ≡ₚ new_row n k ty key_state :: table w)))
  /\ (m = None -> (delete_key m md flag w).1 <> Beyond)
  /\ (delete_all w).1 <> Beyond
  /\ (add_key n k ty key_state w).1 <> Beyond.
Proof.
  intros Ht Hs Hr. split; [split; [|split] | split; [|split]].
  - apply steps_delete_key.
  - apply steps_delete_all.
  - unfold add_key. fold (new_row n k ty key_state). unfold bind, run_query.
    destruct (stmt_safe _); [|by left].
    assert (sublist (table w) (table w ++ [new_row n k ty key_state])
            /\ table w ++ [new_row n k ty key_state] ≡ₚ new_row n k ty key_state :: table w)
      as Hnew.
    { split; [by apply sublist_inserts_r | symmetry; apply Permutation_cons_append]. }
    destruct (faults w) as [|[code|] fs]; cbn [exec];
      try (destruct (existsb _ _)); cbn; auto.
  - intros ->. by apply delete_key_in_model.
  - apply delete_all_in_model.
  - by apply add_key_in_model.
Qed.

Lemma deletes_only_remove_witness :
  let md : option (gmap string (list string)) := Some {[ "acc" := ["minion_pre"] ]} in
  (sublist (table (delete_key None md true demo).2) (table demo)
   /\ sublist (table (delete_all demo).2) (table demo)
   /\ (table (add_key "web01" "KEY" "zmq" None demo).2 = table demo
       \/ (sublist (table demo) (table (add_key "web01" "KEY" "zmq" None demo).2)
           /\ table (add_key "web01" "KEY" "zmq" None demo).2
              ≡ₚ new_row "web01" "KEY" "zmq" None :: table demo)))
  /\ ((None : option string) = None -> (delete_key None md true demo).1 <> Beyond)
  /\ (delete_all demo).1 <> Beyond
  /\ (add_key "web01" "KEY" "zmq" None demo).1 <> Beyond.
Proof.
  intros md. apply (deletes_only_remove None md true "web01" "KEY" "zmq" None demo).
  - vm_compute. repeat constructor.
  - vm_compute. repeat constructor.
  - reflexivity.
Defined.

End Removals.

(** ** [key_str] and [key_str_all] *)

Section KeyStr.

Implicit Types (mk : gmap string (gmap string string)) (t : list row).

Lemma foldR_key_entries st (l : list row) : forall mk (km : gmap string string),
  foldR (fun mk entry =>
           match item 1 entry with
           | Ok v =>
               match item 0 entry with
               | Ok n => Ok (<[st := <[n := v]> (default ∅ (mk !! st))]> mk)
               | Raise e => Raise e
               | Beyond => Beyond
               end
           | Raise e => Raise e
           | Beyond => Beyond
           end)
        (<[st := km]> mk) (map (fun r => [minion_id r; minion_key r]) l)
  = Ok (<[st := foldl (fun km r => <[minion_id r := minion_key r]> km) km l]> mk).
Proof.
  induction l as [|r l IH]; intros mk km; [done|].
  cbn [map foldR item lookup list_lookup foldl].
  rewrite lookup_insert_eq. cbn [default]. rewrite insert_insert_eq. apply IH.
Qed.

Lemma keys_of_state_served mk st w :
  faults w = [] -> sql_safe st = true ->
  keys_of_state mk st w = (Ok (<[st := key_map st (table w)]> mk), w).
Proof.
  intros Hf Hs. unfold keys_of_state. unfold bind.
  rewrite (run_query_served (SelectIdKey (StateIs st)) w Hf Hs).
  cbn [exec snd entries]. rewrite <- Hf at 1. rewrite set_table_same.
  unfold lift. by rewrite filter_state_is, foldR_key_entries.
Qed.

Lemma foldM_keys_of_state (kvs : list (string * list string)) w : forall mk,
  faults w = [] ->
  Forall (fun sk => sql_safe sk.1 = true) kvs ->
  foldM (fun mk (sk : string * list string) => keys_of_state mk sk.1) mk kvs w
  = (Ok (foldl (fun mk (sk : string * list string) =>
                  <[sk.1 := key_map sk.1 (table w)]> mk) mk kvs), w).
Proof.
  induction kvs as [|sk kvs IH]; intros mk Hf Hs; [done|].
  apply Forall_cons in Hs as [Hsk Hs]. cbn [foldM foldl]. unfold bind.
  rewrite (keys_of_state_served _ _ _ Hf Hsk). by apply IH.
Qed.

Lemma foldl_key_maps_lookup (kvs : list (string * list string)) t : forall mk s,
  foldl (fun mk (sk : string * list string) => <[sk.1 := key_map sk.1 t]> mk) mk kvs !! s
  = if decide (s ∈ kvs.*1) then Some (key_map s t) else mk !! s.
Proof.
  induction kvs as [|[st l] kvs IH]; intros mk s; cbn [foldl fmap list_fmap fst].
  - rewrite decide_False; [done | apply not_elem_of_nil].
  - rewrite IH. destruct (decide (s ∈ kvs.*1)) as [Hin|Hin].
    + rewrite decide_True; [done | by right].
    + destruct (decide (s = st)) as [->|Hne].
      * rewrite lookup_insert_eq. rewrite decide_True; [done | left].
      * rewrite lookup_insert_ne by done. rewrite decide_False; [done|].
        rewrite not_elem_of_cons. by split.
Qed.

Lemma elem_of_map_keys {V} (d : gmap string V) s :
  s ∈ (map_to_list d).*1 <-> is_Some (d !! s).
Proof.
  rewrite list_elem_of_fmap. split.
  - intros ([s' v] & -> & H). apply elem_of_map_to_list in H. by exists v.
  - intros [v H]. exists (s, v). split; [done | by apply elem_of_map_to_list].
Qed.

Lemma key_str_fold (d0 : gmap string (list string)) w :
  faults w = [] ->
  (forall s, is_Some (d0 !! s) -> sql_safe s = true) ->
  exists mk,
    foldM (fun mk (sk : string * list string) => keys_of_state mk sk.1) ∅ (map_to_list d0) w
    = (Ok mk, w)
    /\ forall s, mk !! s = if decide (is_Some (d0 !! s)) then Some (key_map s (table w))
                           else None.
Proof.
  intros Hf Hs. eexists. split.
  - apply foldM_keys_of_state; [done|]. apply Forall_forall. intros [s l] Hin.
    apply Hs. exists l. by apply elem_of_map_to_list.
  - intros s. rewrite foldl_key_maps_lookup.
    destruct (decide (is_Some (d0 !! s))) as [H|H].
    + rewrite decide_True; [done | by apply elem_of_map_keys].
    + rewrite decide_False; [apply lookup_empty | by rewrite elem_of_map_keys].
Qed.

End KeyStr.

(** X20. Against a served backend [key_str_all] returns, under each of the
    four external names, the keys by name of all the rows in that state (the
    empty mapping when there is none), and leaves the store as it is. *)
Theorem key_str_all_served w :
  faults w = [] ->
  Forall (fun r => sql_safe (state r) = true) (table w) ->
  exists d,
    key_str_all w = (Ok d, w)
    /\ forall a b, trans_map !! a = Some b -> d !! b = Some (key_map a (table w)).
Proof.
  intros Hf Hs.
  destruct (key_str_fold (listing (table w)) w Hf) as (mk & Hmk & Hlook).
  { intros s [l Hl]. rewrite listing_lookup in Hl. case_decide as Hi.
    - unfold internal in Hi. rewrite !elem_of_cons, elem_of_nil in Hi.
      destruct Hi as [->|[->|[->|[->|[]]]]]; reflexivity.
    - assert (has_state s (table w)) as Hx.
      { destruct (decide (has_state s (table w))) as [|Hn]; [done|].
        apply names_in_nil_iff in Hn. by rewrite Hn in Hl. }
      unfold has_state in Hx. rewrite Exists_exists in Hx. destruct Hx as (r & Hr & <-).
      rewrite Forall_forall in Hs. by apply Hs. }
  exists (translate mk). split.
  - unfold key_str_all. apply compat_ok.
    by rewrite (bind_ok _ _ _ _ _ (list_keys_healthy w Hf)).
  - intros a b Hab. apply (translate_moves _ a b _ Hab). rewrite Hlook.
    rewrite decide_True; [done|]. rewrite listing_internal; [done|].
    by eapply trans_map_source_internal.
Qed.

Lemma key_str_all_served_witness :
  exists d,
    key_str_all demo = (Ok d, demo)
    /\ forall a b, trans_map !! a = Some b -> d !! b = Some (key_map a (table demo)).
Proof.
  apply (key_str_all_served demo); [reflexivity|]. vm_compute. repeat constructor.
Defined.

(** X21. [key_str] returns whole states, not names: against a served
    backend, under the external name of every state in which the pattern
    matched a name, it returns the keys of all the rows in that state,
    whether their names matched or not. *)
Theorem key_str_whole_states (m : string) matched w :
  faults w = [] ->
  name_match m false w = (Ok matched, w) ->
  (forall s, is_Some (matched !! s) -> sql_safe s = true) ->
  exists d,
    key_str m w = (Ok d, w)
    /\ forall a b, trans_map !! a = Some b -> is_Some (matched !! a) ->
                   d !! b = Some (key_map a (table w)).
Proof.
  intros Hf Hm Hs.
  destruct (key_str_fold matched w Hf Hs) as (mk & Hmk & Hlook).
  exists (translate mk). split.
  - unfold key_str. apply compat_ok. by rewrite (bind_ok _ _ _ _ _ Hm).
  - intros a b Hab Ha. apply (translate_moves _ a b _ Hab). rewrite Hlook.
    by rewrite decide_True.
Qed.

Lemma key_str_whole_states_witness :
  exists d,
    key_str "minion" demo = (Ok d, demo)
    /\ forall a b, trans_map !! a = Some b ->
                   is_Some (({[ "acc" := ["minion"] ]} : gmap string (list string)) !! a) ->
                   d !! b = Some (key_map a (table demo)).
Proof.
  apply (key_str_whole_states "minion" {[ "acc" := ["minion"] ]} demo).
  - reflexivity.
  - vm_compute. reflexivity.
  - intros s [l Hl]. destruct (decide (s = "acc")) as [->|Hne]; [reflexivity|].
    rewrite lookup_singleton_ne in Hl by done. discriminate Hl.
Defined.

Example key_map_demo_acc :
  key_map "acc" demo_rows = {[ "minion" := "QRSTUVWXY"; "minion2" := "123456789" ]}.
Proof. vm_compute. reflexivity. Qed.

(** ** Transitions of named identities *)

Section ByName.

Implicit Types (d : gmap string (list string)) (t : list row).

Lemma names_of_elem d n : n ∈ names_of d <-> exists s, n ∈ bucket d s.
Proof.
  unfold names_of, bucket. rewrite list_elem_of_bind. split.
  - intros ([s l] & Hn & Hs). apply elem_of_map_to_list in Hs. exists s. by rewrite Hs.
  - intros [s Hn]. destruct (d !! s) as [l|] eqn:E; [|by apply not_elem_of_nil in Hn].
    exists (s, l). split; [done | by apply elem_of_map_to_list].
Qed.

Lemma listing_bucket_elem t r : r ∈ t -> minion_id r ∈ bucket (listing t) (state r).
Proof.
  intros Hr. assert (minion_id r ∈ names_in (state r) t) as Hn.
  { apply names_in_elem. by exists r. }
  unfold bucket. rewrite listing_lookup. case_decide; [done|].
  by destruct (names_in (state r) t).
Qed.

Lemma listing_bucket_names t s n : n ∈ bucket (listing t) s -> n ∈ names_in s t.
Proof.
  unfold bucket. rewrite listing_lookup. case_decide; [done|].
  destruct (names_in s t) eqn:E; [by intros ?%not_elem_of_nil | done].
Qed.

Lemma sql_safe_app p q : sql_safe (p +:+ q) = sql_safe p && sql_safe q.
Proof.
  assert (forall c, Str.contains c (p +:+ q) = Str.contains c p || Str.contains c q) as H.
  { intros c. induction p as [|a p IH]; [done|].
    change (String a p +:+ q) with (String a (p +:+ q)). cbn. by rewrite IH, orb_assoc. }
  unfold sql_safe. rewrite !H, !negb_orb.
  destruct (Str.contains "'" p), (Str.contains "\" p), (Str.contains "'" q); done.
Qed.

Context (p : string).
Hypothesis (Hlit : Str.all literal p = true) (Hcomma : Str.all no_comma p = true).

Local Abbreviation exact := (Sre.run (Sre.Bol :: lits p ++ [Sre.Eol]) true).

Lemma name_match_exact_run w :
  faults w = [] ->
  name_match p false w = (Ok (omap (keep exact) (listing (table w))), w).
Proof.
  intros Hf. unfold name_match. rewrite (bind_ok _ _ _ _ _ (list_keys_healthy w Hf)).
  unfold lift. rewrite (rework_exact p Hlit Hcomma).
  by rewrite (select_spec p _ (compile_exact p Hlit)).
Qed.

Lemma matched_names t (r : row) :
  r ∈ t ->
  minion_id r ∈ names_of (omap (keep exact) (listing t))
  <-> minion_id r ∈ [p; p +:+ final_newline].
Proof.
  intros Hr. rewrite names_of_elem, !elem_of_cons, elem_of_nil. split.
  - intros [s Hs]. apply select_member in Hs as [_ Hs]. apply run_exact in Hs. tauto.
  - intros H. exists (state r). apply select_member. split.
    + by apply listing_bucket_elem.
    + apply run_exact. tauto.
Qed.

Lemma matched_names_safe t :
  sql_safe p = true ->
  Forall (fun n => sql_safe n = true) (names_of (omap (keep exact) (listing t))).
Proof.
  intros Hs. apply Forall_forall. intros n Hn.
  apply names_of_elem in Hn as [s Hn]. apply select_member in Hn as [_ Hn].
  apply run_exact in Hn as [-> | ->]; [done|]. by rewrite sql_safe_app, Hs.
Qed.

Lemma accept_by_name_run w :
  faults w = [] -> sql_safe p = true ->
  let t1 := map (promote PEND ACC [p; p +:+ final_newline]) (table w) in
  accept (Some p) None false w
  = (Ok (translate (omap (keep exact) (listing t1))), set_table t1 [] w).
Proof.
  intros Hf Hs t1. unfold accept. apply compat_ok.
  unfold resolve, report. rewrite (bind_ok _ _ _ _ _ (name_match_exact_run w Hf)).
  unfold bind at 1. rewrite for_each_minion_flat.
  change (fun (_ : unit) n =>
            _ <~ run_query (transition_query false [store_table; ACC; n; PEND]) ;; pure tt)
    with (fun (_ : unit) n =>
            _ <~ run_query (Update ACC (And (IdIs n) (StateIs PEND))) ;; pure tt).
  rewrite (foldM_updates ACC (fun n => And (IdIs n) (StateIs PEND)) _ w Hf).
  - rewrite strict_updates by done.
    assert (map (promote PEND ACC (names_of (omap (keep exact) (listing (table w)))))
                (table w) = t1) as ->.
    { apply map_ext_in. intros r Hr. apply list_elem_of_In in Hr. unfold promote.
      apply (f_equal (fun b : bool => if b then set_state ACC r else r)).
      apply bool_decide_ext. by rewrite (matched_names _ _ Hr). }
    by rewrite (name_match_exact_run (set_table t1 [] w)).
  - eapply Forall_impl; [by apply matched_names_safe|]. intros n Hn. cbn. by rewrite Hn.
Qed.

End ByName.

(** X22. For a name made of literal characters (no comma, no quote),
    [accept] by pattern without the flag, against a served backend, moves
    the pending rows of that name (or of that name followed by a newline)
    to accepted and changes no other row; afterwards no row of that name is
    pending, and if one was, the result lists the name under [minions]. *)
Theorem accept_by_name (p : string) w :
  Str.all literal p = true ->
  Str.all no_comma p = true ->
  sql_safe p = true ->
  faults w = [] ->
  exists d w1,
    accept (Some p) None false w = (Ok d, w1)
    /\ table w1 = map (promote PEND ACC [p; p +:+ final_newline]) (table w)
    /\ (p ∉ names_in PEND (table w1))
    /\ (p ∈ names_in PEND (table w) ->
          p ∈ names_in ACC (table w1) /\ exists l, d !! "minions" = Some l /\ p ∈ l).
Proof.
  intros Hl Hc Hs Hf. eexists _, _. split; [by apply accept_by_name_run|].
  cbn [table set_table]. split; [done|].
  set (t1 := map (promote PEND ACC [p; p +:+ final_newline]) (table w)).
  split.
  - intros Hp. apply names_in_elem in Hp as (r' & Hr' & Hst & Hid).
    apply list_elem_of_fmap in Hr' as (r & -> & Hr). unfold promote in Hst, Hid.
    case_bool_decide as H; [done|]. apply H. split; [done|]. rewrite Hid. left.
  - intros Hp. apply names_in_elem in Hp as (r & Hr & Hst & Hid).
    assert (p ∈ names_in ACC t1) as Hacc.
    { apply names_in_elem. exists (promote PEND ACC [p; p +:+ final_newline] r).
      split; [apply list_elem_of_fmap; by exists r|]. unfold promote.
      rewrite bool_decide_eq_true_2; [done|]. split; [done|]. rewrite Hid. left. }
    split; [done|].
    assert (p ∈ bucket (omap (keep (Sre.run (Sre.Bol :: lits p ++ [Sre.Eol]) true))
                             (listing t1)) ACC) as Hb.
    { apply select_member. split.
      - unfold bucket. by rewrite (listing_internal _ _ internal_acc).
      - apply run_exact. by left. }
    unfold bucket in Hb.
    destruct (omap _ (listing t1) !! ACC) as [l|] eqn:E; [|by apply not_elem_of_nil in Hb].
    exists l. split; [|done]. by apply (translate_moves _ ACC "minions").
Qed.

Lemma accept_by_name_witness :
  exists d w1,
    accept (Some "minion_pre") None false demo = (Ok d, w1)
    /\ table w1 = map (promote PEND ACC ["minion_pre"; "minion_pre" +:+ final_newline])
                      (table demo)
    /\ ("minion_pre" ∉ names_in PEND (table w1))
    /\ ("minion_pre" ∈ names_in PEND (table demo) ->
          "minion_pre" ∈ names_in ACC (table w1)
          /\ exists l, d !! "minions" = Some l /\ "minion_pre" ∈ l).
Proof. apply (accept_by_name "minion_pre" demo); reflexivity. Defined.

(** X23. [reject] by mapping without [include_accepted], against a served
    backend, moves exactly the listed identities that are accepted to
    rejected: a listed identity that is pending stays pending, and every
    other row is as it was; the result is the empty mapping. *)
Theorem reject_by_mapping_strict (d : gmap string (list string)) w :
  faults w = [] ->
  Forall (fun n => sql_safe n = true) (names_of d) ->
  reject None (Some d) false w
  = (Ok ∅, set_table (map (promote ACC REJ (names_of d)) (table w)) [] w).
Proof.
  intros Hf Hs. unfold reject.
  rewrite <- (translate_empty (V := list string)). apply compat_ok.
  unfold resolve, report, dict_match. unfold bind at 1. unfold pure at 1.
  unfold bind at 1. rewrite for_each_minion_flat.
  change (fun (_ : unit) n =>
            _ <~ run_query (transition_query false [store_table; REJ; n; ACC]) ;; pure tt)
    with (fun (_ : unit) n =>
            _ <~ run_query (Update REJ (And (IdIs n) (StateIs ACC))) ;; pure tt).
  rewrite (foldM_updates REJ (fun n => And (IdIs n) (StateIs ACC)) _ w Hf).
  - by rewrite strict_updates.
  - eapply Forall_impl; [exact Hs|]. intros n Hn. cbn. by rewrite Hn.
Qed.

Lemma reject_by_mapping_strict_witness :
  reject None (Some {[ "pre" := ["minion_pre"; "minion"] ]}) false demo
  = (Ok ∅,
     set_table (map (promote ACC REJ (names_of {[ "pre" := ["minion_pre"; "minion"] ]}))
                    (table demo)) [] demo).
Proof.
  apply (reject_by_mapping_strict {[ "pre" := ["minion_pre"; "minion"] ]} demo);
    [reflexivity|]. vm_compute. repeat constructor.
Defined.

Example reject_by_mapping_demo :
  table (reject None (Some {[ "pre" := ["minion_pre"; "minion"] ]}) false demo).2
  = [ {| minion_id := "minion_pre"; minion_key := "ABCDEFGH"; key_type := "zmq"; state := "pre" |};
      {| minion_id := "minion_rej"; minion_key := "IJKLMNOP"; key_type := "zmq"; state := "rej" |};
      {| minion_id := "minion"; minion_key := "QRSTUVWXY"; key_type := "zmq"; state := "rej" |};
      {| minion_id := "minion2"; minion_key := "123456789"; key_type := "zmq"; state := "acc" |} ].
Proof. vm_compute. reflexivity. Qed.

(** ** The shape of what [name_match] returns *)

Lemma keep_Some f keys l :
  keep f keys = Some l ->
  l <> [] /\ forall n, n ∈ l <-> n ∈ keys /\ f n = true.
Proof.
  unfold keep. destruct (filter _ (isorted keys)) as [|x l'] eqn:E; [done|].
  intros [= <-]. split; [done|]. intros n.
  rewrite <- E, list_elem_of_filter, isorted_elem. tauto.
Qed.

(** X24. For a pattern that compiles, the result of [name_match] has a
    bucket only for a state in which a name matched: no bucket is empty,
    every bucket is under a key of the candidates, and its names are
    exactly the candidates of that state that the pattern matches. *)
Theorem name_match_buckets (m p : string) r (full : bool) w matches w' :
  rework m = PStr p ->
  Sre.compile ("^" +:+ p +:+ "$") = Some r ->
  (if full then all_keys else list_keys) w = (Ok matches, w') ->
  exists d,
    name_match m full w = (Ok d, w')
    /\ forall s l, d !! s = Some l ->
         l <> []
         /\ exists candidates,
              matches !! s = Some candidates
              /\ forall n, n ∈ l <-> n ∈ candidates /\ Sre.run r true n = true.
Proof.
  intros Hm Hr Hk. rewrite (name_match_select _ _ _ _ _ Hk), Hm.
  rewrite (select_spec p r Hr). eexists. split; [done|]. intros s l.
  rewrite lookup_omap. destruct (matches !! s) as [candidates|]; cbn; [|done].
  intros Hl. apply keep_Some in Hl as [Hne Hl]. split; [done|]. by exists candidates.
Qed.

Lemma name_match_buckets_witness :
  exists d,
    name_match "minion*" false demo = (Ok d, demo)
    /\ forall s l, d !! s = Some l ->
         l <> []
         /\ exists candidates,
              listing demo_rows !! s = Some candidates
              /\ forall n, n ∈ l <->
                   n ∈ candidates
                   /\ Sre.run (Sre.Bol :: lits "minion" ++ [Sre.Rep Sre.Word Sre.Star; Sre.Eol])
                              true n = true.
Proof.
  apply (name_match_buckets "minion*" "minion\w*" _ false demo (listing demo_rows) demo);
    reflexivity.
Defined.

(** ** Stars at the front of a pattern *)

Lemma endswith_cons c m :
  Str.endswith m Str.star = true -> Str.endswith (String c m) Str.star = true.
Proof. destruct m; [done|]. by cbn. Qed.

(** X25. [strip] takes the stars off both ends: on a pattern that ends in
    [*], a [*] put in front changes nothing, and [name_match] gives for
    [*web*] what it gives for [web*]. *)
Theorem leading_star_ignored (m : string) (full : bool) w :
  Str.endswith m Str.star = true ->
  name_match (String Str.star m) full w = name_match m full w.
Proof.
  intros He. unfold name_match.
  assert (rework (String Str.star m) = rework m) as ->; [|done].
  unfold rework. rewrite (endswith_cons _ _ He), He.
  unfold Str.strip. cbn [Str.lstrip]. by rewrite Ascii.eqb_refl.
Qed.

Lemma leading_star_ignored_witness :
  name_match (String Str.star "web*") false web_store = name_match "web*" false web_store.
Proof. apply (leading_star_ignored "web*" false web_store). reflexivity. Defined.

(** ** [delete_key] of a named identity *)

Section DeleteByName.

Context (p : string).
Hypothesis (Hlit : Str.all literal p = true) (Hcomma : Str.all no_comma p = true).

Local Abbreviation exact := (Sre.run (Sre.Bol :: lits p ++ [Sre.Eol]) true).

Lemma no_match_left (t : list row) :
  (forall r, r ∈ t -> minion_id r ∉ [p; p +:+ final_newline]) ->
  omap (keep exact) (listing t) = ∅.
Proof.
  intros Hnone. apply map_eq. intros s. rewrite lookup_omap, lookup_empty.
  destruct (listing t !! s) as [l|] eqn:E; [|done]. cbn.
  destruct (keep exact l) as [l'|] eqn:K; [|done]. exfalso.
  apply keep_Some in K as [Hne Hl]. destruct l' as [|n l']; [done|].
  destruct (proj1 (Hl n)) as [Hn Hf]; [left|].
  assert (n ∈ names_in s t) as Hin.
  { apply listing_bucket_names. unfold bucket. by rewrite E. }
  apply names_in_elem in Hin as (r & Hr & _ & <-).
  apply (Hnone r Hr). apply run_exact in Hf. rewrite !elem_of_cons. tauto.
Qed.

Lemma filter_iff_in {A} (P Q : A -> Prop) `{!forall x, Decision (P x)}
    `{!forall x, Decision (Q x)} (l : list A) :
  (forall x, x ∈ l -> P x <-> Q x) -> filter P l = filter Q l.
Proof.
  induction l as [|x l IH]; intros Hiff; [done|].
  rewrite !filter_cons. rewrite IH by (intros y Hy; apply Hiff; by right).
  destruct (decide (P x)) as [HP|HP].
  - rewrite decide_True; [done|]. apply Hiff; [left | done].
  - rewrite decide_False; [done|]. intros HQ. apply HP. apply Hiff; [left | done].
Qed.

Lemma delete_by_name_run flag w :
  faults w = [] -> sql_safe p = true ->
  p ∈ minion_id <$> table w ->
  delete_key (Some p) None flag w
  = (Ok ∅,
     served_world (filter (fun r => minion_id r ∉ [p; p +:+ final_newline]) (table w)) 1 w).
Proof.
  intros Hf Hs Hp. unfold delete_key.
  rewrite <- (translate_empty (V := list string)). apply compat_ok.
  unfold resolve, report.
  rewrite (bind_ok _ _ _ _ _ (name_match_exact_run p Hlit Hcomma w Hf)).
  change (fun (_ : option bool) key =>
            rd <~ run_query (DeleteWhere (IdIs key)) ;; pure (Some rd.1))
    with delete_step.
  unfold bind at 1. rewrite delete_loop_flat.
  fold (names_of (omap (keep exact) (listing (table w)))).
  set (names := names_of (omap (keep exact) (listing (table w)))).
  rewrite (delete_loop_served names None w Hf (matched_names_safe p (table w) Hs)).
  rewrite delete_rows_filter.
  assert (filter (fun r => minion_id r ∉ names) (table w)
          = filter (fun r => minion_id r ∉ [p; p +:+ final_newline]) (table w)) as ->.
  { apply filter_iff_in. intros r Hr. unfold names.
    by rewrite (matched_names p (table w) r Hr). }
  assert (names <> []) as Hne.
  { apply list_elem_of_fmap in Hp as (r & Hpr & Hr).
    assert (minion_id r ∈ names) as Hin.
    { unfold names. apply (matched_names p (table w) r Hr). rewrite <- Hpr. left. }
    intros Hnil. rewrite Hnil in Hin. by apply not_elem_of_nil in Hin. }
  destruct names as [|n names']; [done|].
  unfold bind at 1. rewrite rotate_served.
  rewrite (name_match_exact_run p Hlit Hcomma (served_world _ 1 w)) by done.
  cbn [table served_world]. rewrite no_match_left; [done|].
  intros r Hr. by apply list_elem_of_filter in Hr as [Hr _].
Qed.

End DeleteByName.

(** X26. [delete_key] by pattern for a name made of literal characters (no
    comma, no quote) that is in the table: against a served backend it
    removes the rows of that name (and of that name followed by a newline),
    keeps every other row, and returns the empty mapping, since the pattern
    is matched again after the deletion and finds nothing. *)
Theorem delete_key_by_name (p : string) flag w :
  Str.all literal p = true ->
  Str.all no_comma p = true ->
  sql_safe p = true ->
  faults w = [] ->
  p ∈ minion_id <$> table w ->
  delete_key (Some p) None flag w
  = (Ok ∅,
     served_world (filter (fun r => minion_id r ∉ [p; p +:+ final_newline]) (table w)) 1 w).
Proof. intros Hl Hc Hs Hf Hp. by apply delete_by_name_run. Qed.

Lemma delete_key_by_name_witness :
  delete_key (Some "minion") None false demo
  = (Ok ∅,
     served_world (filter (fun r => minion_id r ∉ ["minion"; "minion" +:+ final_newline])
                          (table demo)) 1 demo).
Proof.
  apply (delete_key_by_name "minion" false demo); try reflexivity.
  vm_compute. do 2 right. left.
Defined.
